(** * x2gether protocol: the simulation engine of [App.tsx]

    A shallow embedding of the engine that lives inside the [App]
    component: [triggerGuillotine], [processDeposit],
    [handleMidnightReset] and [handleFullReset], together with the
    records of [types.ts].

    Modelling conventions.
    - A JavaScript [number] that holds money, a multiplier or a rate is an
      exact rational ([Q]); the statements below use [==], [<=] and [<] of
      [Q].  Rounding of IEEE doubles, [NaN] and the infinities are outside
      this model.  Counters ([tickCount], [historyCount], [currentRound])
      and [Date.now()] readings are integers ([Z]).
    - The engine state is the mutable object [engine.current]; every
      operation is a function from the state before to the state after.
    - A [Player] object is identified by its position in [state.queue];
      in-place mutation through an alias ([victims], [candidates]) is an
      update of the queue at that position.
    - [Date.now()], [uuidv4()] and [Math.random()] are read from an
      explicit environment, call by call.
    - The React state read by the engine ([multiplier], [strategy] and the
      three toggles) is the record [Settings]. *)

From Stdlib Require Import ZArith QArith Qminmax Qround Lqa Lia.
From Stdlib Require Import Sorting.Sorted Sorting.Permutation.
From stdpp Require Import base list sorting strings.

Local Open Scope Q_scope.

(** ** Records of [types.ts] *)

Inductive DistributionStrategy := STANDARD | COMMUNITY_YIELD.

(** [multiplier] is a plain field of the interface; an object literal that
    omits it leaves it [undefined], which is [None] here. *)
Record Player := mkPlayer {
  id : string;
  deposit : Q;
  target : Q;
  collected : Q;
  entryRound : Z;
  timestamp : Z;
  slashed : bool;
  multiplier : option Q
}.

Record ChartDataPoint := mkPoint {
  round : Q;
  usersTrapped : nat;
  requiredNewLiquidity : Q
}.

(** ** Engine state and its surroundings ([App.tsx]) *)

Record EngineState := mkState {
  queue : list Player;
  historyCount : Z;
  historySum : Q;
  totalDeposited : Q;
  protocolBalance : Q;
  currentRound : Z;
  chartData : list ChartDataPoint;
  tickCount : Z
}.

(** The component state the engine closes over; [baseMultiplier] is the
    [multiplier] of [useState<number>(2.0)]. *)
Record Settings := mkSettings {
  baseMultiplier : Q;
  strategy : DistributionStrategy;
  guillotineEnabled : bool;
  dynamicDecayEnabled : bool;
  winnersTaxEnabled : bool
}.

(** A value of [Math.random()]: a number in the half-open interval from 0
    to 1. *)
Record unit01 := mkUnit01 {
  u01 : Q;
  u01_range : Qle_bool 0 u01 && negb (Qle_bool 1 u01) = true
}.

(** A value of [uuidv4()]: the textual form of a version-4 UUID, which is
    36 characters long. *)
Record uuid := mkUuid {
  uuid_text : string;
  uuid_shape : String.length uuid_text = 36%nat
}.

(** The outside world as one call sees it: [Date_now k] is the reading of
    the [k]-th evaluation of [Date.now()], [Math_random k] the [k]-th value
    of [Math.random()], [uuidv4] the identifier handed out. *)
Record Env := mkEnv {
  Date_now : nat -> Z;
  uuidv4 : uuid;
  Math_random : nat -> unit01
}.

Definition INITIAL_RESERVE : Q := 1000.
Definition FEE_PERCENT : Q := 1 # 100.
Definition GUILLOTINE_INTERVAL : Z := 60.
Definition PROTOCOL_SEED : string := "PROTOCOL_SEED".

(** The literals of [processDeposit] and [triggerGuillotine]. *)
Definition EXIT_EPSILON : Q := 1 # 100.
Definition FAST_EXIT_MS : Z := 10000.
Definition HAIRCUT : Q := 80 # 100.
Definition TAX_SHARE : Q := 20 # 100.

Definition initialState : EngineState :=
  mkState [] 0 0 0 INITIAL_RESERVE 1 [] 0.

(** Field updates. *)
Definition set_target (t : Q) (p : Player) : Player :=
  mkPlayer (id p) (deposit p) t (collected p) (entryRound p) (timestamp p)
           (slashed p) (multiplier p).
Definition set_collected (c : Q) (p : Player) : Player :=
  mkPlayer (id p) (deposit p) (target p) c (entryRound p) (timestamp p)
           (slashed p) (multiplier p).
Definition set_slashed (b : bool) (p : Player) : Player :=
  mkPlayer (id p) (deposit p) (target p) (collected p) (entryRound p)
           (timestamp p) b (multiplier p).
Definition credit (x : Q) (p : Player) : Player :=
  set_collected (collected p + x) p.

Definition set_queue (q : list Player) (s : EngineState) : EngineState :=
  mkState q (historyCount s) (historySum s) (totalDeposited s)
          (protocolBalance s) (currentRound s) (chartData s) (tickCount s).
Definition set_protocolBalance (b : Q) (s : EngineState) : EngineState :=
  mkState (queue s) (historyCount s) (historySum s) (totalDeposited s)
          b (currentRound s) (chartData s) (tickCount s).
Definition set_currentRound (r : Z) (s : EngineState) : EngineState :=
  mkState (queue s) (historyCount s) (historySum s) (totalDeposited s)
          (protocolBalance s) r (chartData s) (tickCount s).
Definition set_tickCount (t : Z) (s : EngineState) : EngineState :=
  mkState (queue s) (historyCount s) (historySum s) (totalDeposited s)
          (protocolBalance s) (currentRound s) (chartData s) t.

(** ** The Guillotine *)

(** Remaining target of a participant, [p.target - p.collected]. *)
Definition liability (p : Player) : Q := target p - collected p.

(** A reference to a queue member: its position and the object found
    there. *)
Definition Ref : Type := nat * Player.

Definition refs (q : list Player) : list Ref := imap pair q.

(** The comparator handed to [sort]:
    [(b.target - b.collected) - (a.target - a.collected)]. *)
Definition byLiability (a b : Ref) : Q := liability b.2 - liability a.2.

(** [Array.prototype.sort] is stable: [a] stays before [b] unless the
    comparator is positive. *)
Fixpoint sortInsert (cmp : Ref -> Ref -> Q) (a : Ref) (l : list Ref) : list Ref :=
  match l with
  | [] => [a]
  | b :: l' =>
      if Qlt_le_dec 0 (cmp a b) then b :: sortInsert cmp a l'
      else a :: b :: l'
  end.

Definition sort (cmp : Ref -> Ref -> Q) (l : list Ref) : list Ref :=
  foldr (sortInsert cmp) [] l.

(** The filter [p => !p.slashed]. *)
Definition notSlashed (r : Ref) : Prop := slashed r.2 = false.

#[global] Instance notSlashed_dec (r : Ref) : Decision (notSlashed r).
Proof. unfold notSlashed. apply _. Defined.

(** [[...state.queue].filter(p => !p.slashed).sort(...).slice(0, 30)] *)
Definition candidatesOf (q : list Player) : list Ref :=
  take 30 (sort byLiability (filter notSlashed (refs q))).

(** [Math.floor(Math.random() * pool.length)] *)
Definition randIndex (r : unit01) (n : nat) : nat :=
  Z.to_nat (Qfloor (u01 r * inject_Z (Z.of_nat n))).

(** The drawing loop [for (let i = 0; i < 10; i++)], entered with [rounds]
    iterations to go and [k] random numbers already consumed.  The [None]
    branch of the lookup is never taken ([randIndex_lt]). *)
Fixpoint drawVictims (rnd : nat -> unit01) (k rounds : nat)
         (pool victims : list Ref) : list Ref :=
  match rounds with
  | O => victims
  | S rounds' =>
      match pool with
      | [] => victims
      | _ :: _ =>
          let randI := randIndex (rnd k) (length pool) in
          match pool !! randI with
          | Some v => drawVictims rnd (S k) rounds' (delete randI pool) (victims ++ [v])
          | None => victims
          end
      end
  end.

(** [v.target = originalTarget * 0.80; v.slashed = true] *)
Definition slash (p : Player) : Player :=
  set_slashed true (set_target (target p * HAIRCUT) p).

Definition victimsOf (env : Env) (q : list Player) : list Ref :=
  drawVictims (Math_random env) 0 10 (candidatesOf q) [].

Definition slashAll (victims : list Ref) (q : list Player) : list Player :=
  foldl (fun q' v => alter slash v.1 q') q victims.

Definition triggerGuillotine (env : Env) (s : EngineState) : EngineState :=
  if (length (queue s) <? 5)%nat then s
  else
    match candidatesOf (queue s) with
    | [] => s
    | _ :: _ => set_queue (slashAll (victimsOf env (queue s)) (queue s)) s
    end.

(** ** [processDeposit] *)

(** Step 1: [Math.max(1, amount * FEE_PERCENT)], charged unless the
    deposit is a system deposit. *)
Definition actualFee (amount : Q) : Q := Qmax 1 (amount * FEE_PERCENT).

Definition feeOf (amount : Q) (isSystem : bool) : Q :=
  if isSystem then 0 else actualFee amount.

Definition netAmountOf (amount : Q) (isSystem : bool) : Q :=
  if isSystem then amount else amount - actualFee amount.

(** Step 2: the two pools. *)
Definition yieldPoolOf (cfg : Settings) (netAmount : Q) : Q :=
  match strategy cfg with
  | COMMUNITY_YIELD => netAmount * (20 # 100)
  | STANDARD => 0
  end.

Definition headPoolOf (cfg : Settings) (netAmount : Q) : Q :=
  match strategy cfg with
  | COMMUNITY_YIELD => netAmount * (80 # 100)
  | STANDARD => netAmount
  end.

(** Step 3: [Math.max(1.1, multiplier - Math.floor(length / 10) * 0.05)]. *)
Definition effectiveMultiplier (cfg : Settings) (isSystem : bool) (qlen : nat) : Q :=
  if dynamicDecayEnabled cfg && negb isSystem then
    let decayFactor := inject_Z (Z.of_nat (qlen / 10)) * (5 # 100) in
    Qmax (11 # 10) (baseMultiplier cfg - decayFactor)
  else baseMultiplier cfg.

(** Step 4: the object literal of [newPlayer]; it names seven of the
    eight fields of [Player]. *)
Definition newPlayerOf (cfg : Settings) (env : Env) (s : EngineState)
           (amount : Q) (isSystem : bool) : Player :=
  {| id := if isSystem then PROTOCOL_SEED else uuid_text (uuidv4 env);
     deposit := amount;
     target := amount * effectiveMultiplier cfg isSystem (length (queue s));
     collected := 0;
     entryRound := currentRound s;
     timestamp := Date_now env 0;
     slashed := false;
     multiplier := None |}.

(** Step 5: the yield drip. *)
Definition distributeYield (yieldPool : Q) (q : list Player) : list Player :=
  if Qlt_le_dec 0 yieldPool then
    match q with
    | [] => q
    | _ :: _ =>
        let yieldShare := yieldPool / inject_Z (Z.of_nat (length q)) in
        map (credit yieldShare) q
    end
  else q.

(** Step 6: the FIFO walk with its [break] and [continue]; the second
    component is [remaining] when the loop is left. *)
Fixpoint distributeHead (remaining : Q) (q : list Player) : list Player * Q :=
  match q with
  | [] => ([], remaining)
  | p :: rest =>
      if Qlt_le_dec 0 remaining then
        let needed := target p - collected p in
        if Qlt_le_dec 0 needed then
          if Qlt_le_dec remaining needed then
            let '(rest', rem) := distributeHead 0 rest in
            (credit remaining p :: rest', rem)
          else
            let '(rest', rem) := distributeHead (remaining - needed) rest in
            (credit needed p :: rest', rem)
        else
          let '(rest', rem) := distributeHead remaining rest in
          (p :: rest', rem)
      else (q, remaining)
  end.

(** Step 8: what the sweep loop carries from one member to the next.
    [sw_gone] lists the objects that left, as the loop leaves them. *)
Record Sweep := mkSweep {
  sw_next : list Player;
  sw_gone : list Player;
  sw_balance : Q;
  sw_count : Z;
  sw_sum : Q;
  sw_now : nat
}.

(** The tax test of one leaving member; [Date.now()] is evaluated only
    when the two flags before it let the conjunction go on. *)
Definition taxGate (cfg : Settings) (isSystem : bool) : bool :=
  winnersTaxEnabled cfg && negb isSystem.

Definition isFastExit (env : Env) (k : nat) (p : Player) : bool :=
  (Date_now env k - timestamp p <? FAST_EXIT_MS)%Z.

Definition sweepStep (cfg : Settings) (env : Env) (isSystem : bool)
           (a : Sweep) (p : Player) : Sweep :=
  if Qlt_le_dec (collected p) (target p - EXIT_EPSILON) then
    mkSweep (sw_next a ++ [p]) (sw_gone a) (sw_balance a) (sw_count a)
            (sw_sum a) (sw_now a)
  else
    let p' := set_collected (target p) p in
    let now' := if taxGate cfg isSystem then S (sw_now a) else sw_now a in
    let balance' :=
      if taxGate cfg isSystem && isFastExit env (sw_now a) p' then
        let profit := collected p' - deposit p' in
        if Qlt_le_dec 0 profit then sw_balance a + profit * TAX_SHARE
        else sw_balance a
      else sw_balance a in
    mkSweep (sw_next a) (sw_gone a ++ [p']) balance' (sw_count a + 1)%Z
            (sw_sum a + target p') now'.

Definition cleanupSweep (cfg : Settings) (env : Env) (isSystem : bool)
           (s : EngineState) : Sweep :=
  foldl (sweepStep cfg env isSystem)
        (mkSweep [] [] (protocolBalance s) (historyCount s) (historySum s) 1%nat)
        (queue s).

(** Step 9: the chart sample and the bound of 100 entries. *)
Definition totalLiability (q : list Player) : Q :=
  foldl (fun acc p => acc + (target p - collected p)) 0 q.

Definition pushChart (pt : ChartDataPoint) (c : list ChartDataPoint) : list ChartDataPoint :=
  let c' := c ++ [pt] in
  if (100 <? length c')%nat then drop 1 c' else c'.

(** Everything one call computes, in the order of the source. *)
Record DepositTrace := mkTrace {
  tr_fee : Q;
  tr_net : Q;
  tr_start : EngineState;
  tr_new : Player;
  tr_afterYield : list Player;
  tr_afterHead : list Player;
  tr_leftover : Q;
  tr_pushed : EngineState;
  tr_sweep : Sweep;
  tr_final : EngineState
}.

(** The first lines of [processDeposit]: [state.tickCount++] and the
    GUILLOTINE CHECK. *)
Definition guillotineCheck (cfg : Settings) (env : Env) (s : EngineState) : EngineState :=
  let s1 := set_tickCount (tickCount s + 1)%Z s in
  if guillotineEnabled cfg && (Z.rem (tickCount s1) GUILLOTINE_INTERVAL =? 0)%Z
  then triggerGuillotine env s1 else s1.

Definition depositTrace (cfg : Settings) (env : Env) (s : EngineState)
           (amount : Q) (isSystem : bool) : DepositTrace :=
  let s2 := guillotineCheck cfg env s in
  let netAmount := netAmountOf amount isSystem in
  let balance3 :=
    if isSystem then protocolBalance s2
    else protocolBalance s2 + actualFee amount in
  let deposited3 := totalDeposited s2 + amount in
  let newPlayer := newPlayerOf cfg env s2 amount isSystem in
  let q5 := distributeYield (yieldPoolOf cfg netAmount) (queue s2) in
  let walk := distributeHead (headPoolOf cfg netAmount) q5 in
  let s7 :=
    mkState (walk.1 ++ [newPlayer]) (historyCount s2) (historySum s2) deposited3
            balance3 (currentRound s2) (chartData s2) (tickCount s2) in
  let sw := cleanupSweep cfg env isSystem s7 in
  let pt := mkPoint deposited3 (length (sw_next sw)) (totalLiability (sw_next sw)) in
  let s9 :=
    mkState (sw_next sw) (sw_count sw) (sw_sum sw) deposited3 (sw_balance sw)
            (currentRound s2) (pushChart pt (chartData s2)) (tickCount s2) in
  mkTrace (feeOf amount isSystem) netAmount s2 newPlayer q5 walk.1 walk.2 s7 sw s9.

Definition processDeposit (cfg : Settings) (env : Env) (s : EngineState)
           (amount : Q) (isSystem : bool) : EngineState :=
  tr_final (depositTrace cfg env s amount isSystem).

(** ** [handleMidnightReset] and [handleFullReset] *)

(** The refund loop; the second component is [surplus] when the loop is
    left. *)
Fixpoint refundWalk (surplus : Q) (q : list Player) : list Player * Q :=
  match q with
  | [] => ([], surplus)
  | p :: rest =>
      if Qlt_le_dec 0 surplus then
        let remainingPrincipal := Qmax 0 (deposit p - collected p) in
        if Qlt_le_dec 0 remainingPrincipal then
          let pay := Qmin surplus remainingPrincipal in
          let '(rest', rem) := refundWalk (surplus - pay) rest in
          (credit pay p :: rest', rem)
        else
          let '(rest', rem) := refundWalk surplus rest in
          (p :: rest', rem)
      else (q, surplus)
  end.

Definition surplusOf (s : EngineState) : Q :=
  Qmax 0 (protocolBalance s - INITIAL_RESERVE).

(** 1. REFUND PHASE *)
Definition refundPhase (s : EngineState) : EngineState :=
  if Qlt_le_dec 0 (surplusOf s) then
    let '(q', rem) := refundWalk (surplusOf s) (queue s) in
    set_protocolBalance (INITIAL_RESERVE + rem) (set_queue q' s)
  else s.

(** 2. WIPE and 3. RESTART *)
Definition wipeAndRestart (s : EngineState) : EngineState :=
  set_currentRound (currentRound s + 1)%Z (set_queue [] s).

(** 4. PROTOCOL SEED *)
Definition protocolSeed (cfg : Settings) (env : Env) (s : EngineState) : EngineState :=
  if Qlt_le_dec (protocolBalance s) 100 then s
  else processDeposit cfg env (set_protocolBalance (protocolBalance s - 100) s) 100 true.

Definition handleMidnightReset (cfg : Settings) (env : Env) (s : EngineState) : EngineState :=
  protocolSeed cfg env (wipeAndRestart (refundPhase s)).

Definition handleFullReset (s : EngineState) : EngineState := initialState.

(** * Vocabulary of the statements *)

(** Two versions of one object that differ at most in [target] and
    [slashed]. *)
Definition sameButTarget (p p' : Player) : Prop :=
  id p' = id p /\ deposit p' = deposit p /\ collected p' = collected p /\
  entryRound p' = entryRound p /\ timestamp p' = timestamp p /\
  multiplier p' = multiplier p.

(** [a] is ranked before [b]: a larger remaining liability, or the same
    liability and an earlier place in the queue. *)
Definition outranks (a b : Ref) : Prop :=
  liability b.2 < liability a.2 \/
  (liability b.2 == liability a.2 /\ (a.1 < b.1)%nat).

Definition earlier (a b : Ref) : Prop := (a.1 < b.1)%nat.

(** [{feeRate: 0.01, multiplier: 2.0, strategy: STANDARD}], every toggle
    off; the fee rate is the constant [FEE_PERCENT]. *)
Definition scenario1 : Settings := mkSettings 2 STANDARD false false false.

(** The test of the sweep, read as "stays in the queue". *)
Definition stays (p : Player) : Prop := collected p < target p - EXIT_EPSILON.

#[global] Instance stays_dec (p : Player) : Decision (stays p).
Proof.
  unfold stays.
  destruct (Qlt_le_dec (collected p) (target p - EXIT_EPSILON)) as [H|H].
  - left. exact H.
  - right. apply Qle_not_lt. exact H.
Defined.

(** [p.collected = p.target; // Visual clean] *)
Definition clamp (p : Player) : Player := set_collected (target p) p.

(** Two versions of one object that differ at most by a credit to
    [collected]. *)
Definition creditedOnly (p p' : Player) : Prop :=
  id p' = id p /\ deposit p' = deposit p /\ target p' = target p /\
  collected p <= collected p' /\ entryRound p' = entryRound p /\
  timestamp p' = timestamp p /\ slashed p' = slashed p /\
  multiplier p' = multiplier p.

Definition nonNegative (q : list Player) : Prop :=
  Forall (fun p => 0 <= collected p) q.

(** The states the driver can bring about: deposits of users (any
    settings, any amount), [handleMidnightReset] and [handleFullReset], in
    any order. *)
Inductive reachable : EngineState -> Prop :=
| reach_init : reachable initialState
| reach_deposit cfg env amount s :
    reachable s -> reachable (processDeposit cfg env s amount false)
| reach_settle cfg env s :
    reachable s -> reachable (handleMidnightReset cfg env s)
| reach_reset s :
    reachable s -> reachable (handleFullReset s).

(** What every queue between two calls looks like. *)
Definition settled (q : list Player) : Prop :=
  Forall (fun p => 0 <= collected p /\ stays p) q.

Definition isSeed (p : Player) : Prop := id p = PROTOCOL_SEED.

#[global] Instance isSeed_dec (p : Player) : Decision (isSeed p).
Proof. unfold isSeed. apply _. Defined.

Definition seedCount (q : list Player) : nat := length (filter isSeed q).

(** What "the deposit was rejected" would mean for the state. *)
Definition untouched (s s' : EngineState) : Prop :=
  queue s' = queue s /\
  protocolBalance s' == protocolBalance s /\
  totalDeposited s' == totalDeposited s /\
  tickCount s' = tickCount s /\
  historyCount s' = historyCount s /\
  historySum s' == historySum s /\
  chartData s' = chartData s.

(** A fixed outside world for the concrete runs: the clock stands at
    [now], every random number is 0. *)
Definition sampleUuid : uuid :=
  mkUuid "3b241101-e2bb-4255-8caf-4136c566a962" eq_refl.

Definition zero01 : unit01 := mkUnit01 0 eq_refl.

Definition envAt (now : Z) : Env :=
  mkEnv (fun _ => now) sampleUuid (fun _ => zero01).

Fixpoint sumCollected (q : list Player) : Q :=
  match q with
  | [] => 0
  | p :: rest => collected p + sumCollected rest
  end.

(** The need the walk can serve: [max(0, target - collected)], member by
    member. *)
Fixpoint totalNeed (q : list Player) : Q :=
  match q with
  | [] => 0
  | p :: rest => Qmax 0 (target p - collected p) + totalNeed rest
  end.

(** The refund walk in the words of the specification: in queue order,
    each participant is paid [min(surplus, max(0, deposit - collected))]
    and the surplus shrinks by the payment. *)
Fixpoint refundAsClaimed (surplus : Q) (q : list Player) : list Player * Q :=
  match q with
  | [] => ([], surplus)
  | p :: rest =>
      let pay := Qmin surplus (Qmax 0 (deposit p - collected p)) in
      let walk := refundAsClaimed (surplus - pay) rest in
      (credit pay p :: walk.1, walk.2)
  end.

(** Settlement in the words of the specification: the reserve is set to
    the floor plus the remaining surplus in every case. *)
Definition settlementAsClaimed (cfg : Settings) (env : Env) (s : EngineState) : EngineState :=
  let surplus := Qmax 0 (protocolBalance s - INITIAL_RESERVE) in
  let walk :=
    if Qlt_le_dec 0 surplus then refundAsClaimed surplus (queue s)
    else (queue s, surplus) in
  let reserve := INITIAL_RESERVE + walk.2 in
  let cleared :=
    mkState [] (historyCount s) (historySum s) (totalDeposited s) reserve
            (currentRound s + 1)%Z (chartData s) (tickCount s) in
  if Qlt_le_dec reserve 100 then cleared
  else processDeposit cfg env (set_protocolBalance (reserve - 100) cleared) 100 true.

(** The same object up to the representation of [collected]. *)
Definition samePlayer (p p' : Player) : Prop :=
  id p' = id p /\ deposit p' = deposit p /\ target p' = target p /\
  collected p' == collected p /\ entryRound p' = entryRound p /\
  timestamp p' = timestamp p /\ slashed p' = slashed p /\
  multiplier p' = multiplier p.

Definition principalNeed (q : list Player) : Q :=
  foldr (fun p acc => Qmax 0 (deposit p - collected p) + acc) 0 q.

(** Scenario 4: a reserve of 1500 and three participants whose remaining
    principal is 200, 150 and 100. *)
Definition scenario4 : EngineState :=
  set_protocolBalance 1500
    (set_queue [mkPlayer "a" 200 400 0 1 0 false None;
                mkPlayer "b" 200 400 50 1 0 false None;
                mkPlayer "c" 100 200 0 1 0 false None] initialState).

Definition taxSettings : Settings := mkSettings 2 STANDARD false false true.

(** A crowd of six: one member already slashed, three tied at the largest
    liability. *)
Definition crowd : list Player :=
  [mkPlayer "p0" 100 200 0 1 0 false None;
   mkPlayer "p1" 300 600 100 1 0 false None;
   mkPlayer "p2" 50 100 0 1 0 true None;
   mkPlayer "p3" 250 500 0 1 0 false None;
   mkPlayer "p4" 250 500 0 1 0 false None;
   mkPlayer "p5" 10 20 0 1 0 false None].

Definition crowdState : EngineState := set_queue crowd initialState.

Definition yieldSettings : Settings := mkSettings 2 COMMUNITY_YIELD true true true.

(** Two user deposits, a settlement and a deposit under the yield
    strategy. *)
Definition sampleRun : EngineState :=
  processDeposit yieldSettings (envAt 3)
    (handleMidnightReset scenario1 (envAt 2)
       (processDeposit scenario1 (envAt 1)
          (processDeposit scenario1 (envAt 0) initialState 100 false) 250 false))
    120 false.

(** The tax the sweep levies on the members that leave, in queue order,
    the first of them judged at the [k]-th reading of the clock. *)
Fixpoint taxesFrom (cfg : Settings) (env : Env) (isSystem : bool) (k : nat)
         (leaving : list Player) : Q :=
  match leaving with
  | [] => 0
  | p :: rest =>
      let profit := target p - deposit p in
      let due :=
        if taxGate cfg isSystem && (Date_now env k - timestamp p <? FAST_EXIT_MS)%Z
        then Qmax 0 (profit * TAX_SHARE) else 0 in
      due + taxesFrom cfg env isSystem (if taxGate cfg isSystem then S k else k) rest
  end.

(** ** The snapshot, the deposit timer and the queue cards *)

(** [SimulationStats] of [types.ts], as [syncUI] fills it. *)
Module SimulationStats.
Record t := mk {
  totalDeposited : Q;
  totalPaidOut : Q;
  totalUsers : Z;
  usersPaidExit : Z;
  usersTrapped : nat;
  currentQueueLength : nat;
  currentRound : Z;
  strategy : DistributionStrategy;
  multiplier : Q;
  protocolBalance : Q;
  guillotineEnabled : bool;
  dynamicDecayEnabled : bool;
  winnersTaxEnabled : bool
}.
End SimulationStats.

(** The object handed to [setUiSnapshot]. *)
Module UiSnapshot.
Record t := mk {
  queueSlice : list Player;
  stats : SimulationStats.t;
  chartData : list ChartDataPoint;
  headPlayer : option Player
}.
End UiSnapshot.

(** [syncUI]: [state.queue.slice(0, 8)], the statistics, a copy of the
    chart and [state.queue[0] || null]. *)
Definition syncUI (cfg : Settings) (s : EngineState) : UiSnapshot.t :=
  UiSnapshot.mk
    (take 8 (queue s))
    (SimulationStats.mk
       (totalDeposited s) (historySum s)
       (historyCount s + Z.of_nat (length (queue s)))%Z
       (historyCount s) (length (queue s)) (length (queue s))
       (currentRound s) (strategy cfg) (baseMultiplier cfg)
       (protocolBalance s) (guillotineEnabled cfg) (dynamicDecayEnabled cfg)
       (winnersTaxEnabled cfg))
    (chartData s)
    (head (queue s)).

(** The amount the running simulation deposits every tick:
    [Math.floor(Math.random() * 990) + 10]. *)
Definition autoAmount (r : unit01) : Q :=
  inject_Z (Qfloor (u01 r * 990) + 10).

(** [QueueVisualizer]: the cards shown, [queue.slice(0, maxDisplay)], the
    progress of a card, [(player.collected / player.target) * 100], and the
    width of its bar, [Math.min(100, progress)]. *)
Definition displayQueue (maxDisplay : nat) (q : list Player) : list Player :=
  take maxDisplay q.

Definition progress (p : Player) : Q := collected p / target p * 100.

Definition barWidth (p : Player) : Q := Qmin 100 (progress p).

Fixpoint sumTargets (q : list Player) : Q :=
  match q with
  | [] => 0
  | p :: rest => target p + sumTargets rest
  end.

(** The member at position [i] is fully paid. *)
Definition paidUp (p : Player) : Prop := target p <= collected p.

(** * Properties *)

(** ** What the Guillotine leaves alone *)

Lemma sameButTarget_refl p : sameButTarget p p.
Proof. repeat split. Qed.

Lemma sameButTarget_trans p1 p2 p3 :
  sameButTarget p1 p2 -> sameButTarget p2 p3 -> sameButTarget p1 p3.
Proof.
  unfold sameButTarget.
  intros (?&?&?&?&?&?) (?&?&?&?&?&?). repeat split; congruence.
Qed.

Lemma sameButTarget_slash p : sameButTarget p (slash p).
Proof. repeat split. Qed.

Lemma alter_slash_frame (q : list Player) i :
  Forall2 sameButTarget q (alter slash i q).
Proof.
  revert i. induction q as [|p q IH]; intros [|i]; simpl.
  - constructor.
  - constructor.
  - constructor; [apply sameButTarget_slash|].
    apply Forall2_same_length_lookup_2; [reflexivity|].
    intros j x y Hx Hy. rewrite Hx in Hy. injection Hy as <-.
    apply sameButTarget_refl.
  - constructor; [apply sameButTarget_refl | apply IH].
Qed.

Lemma Forall2_sameButTarget_trans (q1 q2 q3 : list Player) :
  Forall2 sameButTarget q1 q2 -> Forall2 sameButTarget q2 q3 ->
  Forall2 sameButTarget q1 q3.
Proof.
  intros H12. revert q3. induction H12; intros q3 H23; inversion H23; subst.
  - constructor.
  - constructor; [eapply sameButTarget_trans; eassumption | auto].
Qed.

Lemma slashAll_frame (vs : list Ref) (q : list Player) :
  Forall2 sameButTarget q (slashAll vs q).
Proof.
  unfold slashAll. revert q. induction vs as [|v vs IH]; intros q; simpl.
  - apply Forall2_same_length_lookup_2; [reflexivity|].
    intros j x y Hx Hy. rewrite Hx in Hy. injection Hy as <-.
    apply sameButTarget_refl.
  - eapply Forall2_sameButTarget_trans; [apply alter_slash_frame | apply IH].
Qed.

Lemma slashAll_length (vs : list Ref) (q : list Player) :
  length (slashAll vs q) = length q.
Proof.
  symmetry. eapply Forall2_length, slashAll_frame.
Qed.

(** A position no victim points at keeps its object. *)
Lemma slashAll_lookup_other (vs : list Ref) (q : list Player) i :
  i ∉ vs.*1 -> slashAll vs q !! i = q !! i.
Proof.
  unfold slashAll. revert q. induction vs as [|v vs IH]; intros q Hi; simpl.
  - reflexivity.
  - rewrite fmap_cons, not_elem_of_cons in Hi. destruct Hi as [Hne Hi].
    rewrite IH by assumption. apply list_lookup_alter_ne. congruence.
Qed.

(** A position one victim points at, once, is slashed once. *)
Lemma slashAll_lookup_victim (vs : list Ref) (q : list Player) i :
  NoDup vs.*1 -> i ∈ vs.*1 -> slashAll vs q !! i = slash <$> q !! i.
Proof.
  unfold slashAll. revert q. induction vs as [|v vs IH]; intros q Hnd Hi; simpl.
  - inversion Hi.
  - rewrite fmap_cons in Hnd, Hi. apply NoDup_cons in Hnd as [Hnotin Hnd].
    apply elem_of_cons in Hi as [-> | Hi].
    + pose proof (slashAll_lookup_other vs (alter slash v.1 q) v.1 Hnotin) as E.
      unfold slashAll in E. rewrite E. apply list_lookup_alter_eq.
    + rewrite IH by assumption.
      rewrite list_lookup_alter_ne; [reflexivity|].
      intros E. apply Hnotin. rewrite E. exact Hi.
Qed.

Lemma triggerGuillotine_queue env s :
  queue (triggerGuillotine env s) = queue s \/
  queue (triggerGuillotine env s) = slashAll (victimsOf env (queue s)) (queue s).
Proof.
  unfold triggerGuillotine.
  destruct (length (queue s) <? 5)%nat; [left; reflexivity|].
  destruct (candidatesOf (queue s)); [left; reflexivity|].
  right. reflexivity.
Qed.

Lemma triggerGuillotine_ledger env s :
  triggerGuillotine env s = set_queue (queue (triggerGuillotine env s)) s.
Proof.
  unfold triggerGuillotine.
  destruct (length (queue s) <? 5)%nat; [destruct s; reflexivity|].
  destruct (candidatesOf (queue s)); [destruct s; reflexivity|].
  reflexivity.
Qed.

Lemma triggerGuillotine_frame env s :
  Forall2 sameButTarget (queue s) (queue (triggerGuillotine env s)).
Proof.
  destruct (triggerGuillotine_queue env s) as [-> | ->].
  - apply Forall2_same_length_lookup_2; [reflexivity|].
    intros j x y Hx Hy. rewrite Hx in Hy. injection Hy as <-.
    apply sameButTarget_refl.
  - apply slashAll_frame.
Qed.

(** ** Candidates and victims *)

Lemma elem_of_refs (q : list Player) (r : Ref) :
  r ∈ refs q <-> q !! r.1 = Some r.2.
Proof.
  unfold refs. rewrite list_elem_of_lookup. split.
  - intros [i Hi]. rewrite list_lookup_imap in Hi.
    destruct (q !! i) as [p|] eqn:E; simpl in Hi; [|discriminate].
    injection Hi as <-. exact E.
  - intros H. exists r.1. rewrite list_lookup_imap, H. destruct r; reflexivity.
Qed.

Lemma imap_shift_sorted (q : list Player) (k : nat) :
  StronglySorted earlier (imap (fun i p => ((k + i)%nat, p)) q).
Proof.
  revert k. induction q as [|p q IH]; intros k.
  - constructor.
  - rewrite imap_cons. constructor.
    + rewrite (imap_ext _ (fun i p => ((S k + i)%nat, p))).
      * apply IH.
      * intros i x _. simpl. f_equal. lia.
    + apply Forall_forall. intros r Hr.
      apply list_elem_of_lookup in Hr as [i Hi].
      rewrite list_lookup_imap in Hi.
      destruct (q !! i); simpl in Hi; [|discriminate].
      injection Hi as <-. unfold earlier. simpl. lia.
Qed.

Lemma refs_sorted (q : list Player) : StronglySorted earlier (refs q).
Proof. apply (imap_shift_sorted q 0). Qed.

Lemma refs_fst (q : list Player) : NoDup (refs q).*1.
Proof.
  assert (H : forall l : list Ref, StronglySorted earlier l -> NoDup l.*1).
  { induction 1 as [|a l Hs IH Hall]; simpl; constructor; [|assumption].
    intros Hin. apply list_elem_of_fmap in Hin as (b & Eb & Hb).
    rewrite Forall_forall in Hall. specialize (Hall b Hb).
    unfold earlier in Hall. lia. }
  apply H, refs_sorted.
Qed.

Lemma StronglySorted_sublist {A} (R : A -> A -> Prop) (l1 l2 : list A) :
  l1 `sublist_of` l2 -> StronglySorted R l2 -> StronglySorted R l1.
Proof.
  induction 1 as [|x l1 l2 Hsub IH|x l1 l2 Hsub IH]; intros Hs.
  - constructor.
  - apply StronglySorted_inv in Hs as [Hs Hall]. constructor; [auto|].
    rewrite Forall_forall in Hall |- *. intros y Hy.
    apply Hall. eapply elem_of_sublist; eassumption.
  - apply StronglySorted_inv in Hs as [Hs _]. auto.
Qed.

(** Insertion keeps the members and, for an element that comes before all
    of the list, the ranking. *)
Lemma sortInsert_perm cmp a l : sortInsert cmp a l ≡ₚ a :: l.
Proof.
  induction l as [|b l IH]; simpl; [reflexivity|].
  destruct (Qlt_le_dec 0 (cmp a b)); [|reflexivity].
  rewrite IH. apply Permutation_swap.
Qed.

Lemma sort_perm cmp l : sort cmp l ≡ₚ l.
Proof.
  unfold sort. induction l as [|a l IH]; simpl; [reflexivity|].
  rewrite sortInsert_perm. constructor. exact IH.
Qed.

Lemma outranks_weak a b : outranks a b -> liability b.2 <= liability a.2.
Proof. unfold outranks. intros [H | [H _]]; lra. Qed.

Lemma sortInsert_sorted a l :
  Forall (earlier a) l -> StronglySorted outranks l ->
  StronglySorted outranks (sortInsert byLiability a l).
Proof.
  induction l as [|b l IH]; intros Hearly Hs; simpl.
  - repeat constructor.
  - apply Forall_cons in Hearly as [Hab Hearly].
    pose proof (StronglySorted_inv Hs) as [Hs' Hall].
    destruct (Qlt_le_dec 0 (byLiability a b)) as [Hlt | Hle];
      unfold byLiability in *.
    + constructor; [apply IH; assumption|].
      rewrite (sortInsert_perm byLiability a l).
      constructor; [|assumption]. left. lra.
    + constructor; [assumption|].
      assert (Hb : outranks a b).
      { destruct (Qlt_le_dec (liability b.2) (liability a.2)) as [?|?].
        - left. assumption.
        - right. split; [lra | exact Hab]. }
      constructor; [exact Hb|].
      rewrite Forall_forall in Hall, Hearly |- *. intros y Hy.
      pose proof (outranks_weak _ _ (Hall y Hy)) as Hyb.
      destruct (Qlt_le_dec (liability y.2) (liability a.2)) as [?|?].
      * left. assumption.
      * right. split; [lra | apply Hearly, Hy].
Qed.

Lemma sort_sorted l :
  StronglySorted earlier l -> StronglySorted outranks (sort byLiability l).
Proof.
  unfold sort. induction 1 as [|a l Hs IH Hall]; simpl; [constructor|].
  apply sortInsert_sorted; [|exact IH].
  fold (sort byLiability l). rewrite sort_perm. exact Hall.
Qed.

(** The ranking is determined by its description: any arrangement of the
    same references that is ranked by [outranks] is the one [sort]
    returns, whatever the sorting algorithm. *)
Lemma ranking_unique (l ranked : list Ref) :
  StronglySorted earlier l -> ranked ≡ₚ l -> StronglySorted outranks ranked ->
  ranked = sort byLiability l.
Proof.
  intros Hl Hperm Hranked.
  apply (StronglySorted_unique_strong outranks); [|exact Hranked| |].
  - intros a b _ _ Hab Hba. exfalso. unfold outranks in Hab, Hba.
    destruct Hab as [?|[? ?]]; destruct Hba as [?|[? ?]]; try lra; lia.
  - apply sort_sorted, Hl.
  - rewrite sort_perm. exact Hperm.
Qed.

(** The index drawn lies inside the pool. *)
Lemma randIndex_lt (r : unit01) (n : nat) : (0 < n)%nat -> (randIndex r n < n)%nat.
Proof.
  intros Hn. unfold randIndex.
  pose proof (u01_range r) as Hr.
  apply andb_true_iff in Hr as [H0 H1].
  apply Qle_bool_iff in H0. apply negb_true_iff in H1.
  assert (Hlt : u01 r < 1).
  { apply Qnot_le_lt. intros Hc. apply Qle_bool_iff in Hc. congruence. }
  set (m := inject_Z (Z.of_nat n)).
  assert (Hm : 0 < m).
  { unfold m. change 0 with (inject_Z 0). rewrite <- Zlt_Qlt. lia. }
  assert (Hlo : 0 <= u01 r * m) by nra.
  assert (Hhi : u01 r * m < m) by nra.
  pose proof (Qfloor_le (u01 r * m)) as Hfl.
  assert (Hz : (Qfloor (u01 r * m) < Z.of_nat n)%Z).
  { rewrite Zlt_Qlt. fold m. lra. }
  assert (Hz0 : (0 <= Qfloor (u01 r * m))%Z).
  { change 0%Z with (Qfloor 0). apply Qfloor_resp_le. exact Hlo. }
  lia.
Qed.

(** The loop extends [victims] by distinct members of the pool, as many as
    it has rounds, or the whole pool if that is smaller. *)
Lemma drawVictims_spec rnd k rounds (pool victims : list Ref) :
  exists drawn,
    drawVictims rnd k rounds pool victims = victims ++ drawn /\
    drawn ⊆+ pool /\
    length drawn = Nat.min rounds (length pool).
Proof.
  revert k pool victims. induction rounds as [|n IH]; intros k pool victims; simpl.
  - exists []. rewrite app_nil_r. repeat split. apply submseteq_nil_l.
  - destruct pool as [|r0 pool'] eqn:Epool.
    + exists []. rewrite app_nil_r. repeat split. apply submseteq_nil_l.
    + rewrite <- Epool.
      assert (Hlen : (0 < length pool)%nat) by (rewrite Epool; simpl; lia).
      pose proof (randIndex_lt (rnd k) (length pool) Hlen) as Hi.
      destruct (lookup_lt_is_Some_2 pool _ Hi) as [v Hv]. rewrite Hv.
      destruct (IH (S k) (delete (randIndex (rnd k) (length pool)) pool)
                   (victims ++ [v])) as (d & Ed & Hsub & Hl).
      exists (v :: d). split; [|split].
      * rewrite Ed, <- app_assoc. reflexivity.
      * rewrite (delete_Permutation pool _ v Hv). apply submseteq_skip, Hsub.
      * simpl. rewrite Hl, length_delete by (eexists; exact Hv).
        rewrite Epool. simpl. f_equal. lia.
Qed.

Lemma submseteq_NoDup {A} (l k : list A) : l ⊆+ k -> NoDup k -> NoDup l.
Proof.
  intros Hsub Hnd. apply submseteq_Permutation in Hsub as [k' Hk].
  rewrite Hk in Hnd. apply NoDup_app in Hnd. tauto.
Qed.

Lemma candidatesOf_sub (q : list Player) : candidatesOf q ⊆+ refs q.
Proof.
  unfold candidatesOf.
  etransitivity; [apply submseteq_take|].
  rewrite sort_perm. apply sublist_submseteq, sublist_filter.
Qed.

Lemma candidatesOf_notSlashed (q : list Player) (r : Ref) :
  r ∈ candidatesOf q -> q !! r.1 = Some r.2 /\ slashed r.2 = false.
Proof.
  intros Hr. unfold candidatesOf in Hr.
  pose proof (elem_of_submseteq _ _ _ Hr (submseteq_take _ _)) as Hr'.
  rewrite sort_perm in Hr'. apply list_elem_of_filter in Hr' as [Hns Hin].
  split; [apply elem_of_refs, Hin | exact Hns].
Qed.

Lemma victimsOf_spec env (q : list Player) :
  victimsOf env q ⊆+ candidatesOf q /\
  NoDup (victimsOf env q).*1 /\
  length (victimsOf env q) = Nat.min 10 (length (candidatesOf q)).
Proof.
  unfold victimsOf.
  destruct (drawVictims_spec (Math_random env) 0 10 (candidatesOf q) [])
    as (d & -> & Hsub & Hlen).
  simpl. split; [exact Hsub|]. split; [|exact Hlen].
  eapply submseteq_NoDup; [|apply (refs_fst q)].
  apply fmap_submseteq. etransitivity; [exact Hsub | apply candidatesOf_sub].
Qed.

Lemma triggerGuillotine_crowd env s :
  (5 <= length (queue s))%nat ->
  queue (triggerGuillotine env s) = slashAll (victimsOf env (queue s)) (queue s).
Proof.
  intros Hlen. unfold triggerGuillotine.
  destruct (Nat.ltb_spec (length (queue s)) 5) as [?|_]; [lia|].
  destruct (candidatesOf (queue s)) eqn:E; [|reflexivity].
  unfold victimsOf. rewrite E. reflexivity.
Qed.

(** C6.  With fewer than five members the Guillotine returns the state as
    it found it.  Otherwise the candidates are the first 30 of the ranking
    that holds every queue member without the slashed flag, each once with
    its position, and no one else, ordered by [target - collected], largest
    first, equal values in queue order; the victims are distinct candidates,
    [min 10 (number of candidates)] of them; each victim's target is
    multiplied by 0.80 once and its flag set, its collected amount kept;
    every other member is untouched. *)
Theorem guillotine_selects_and_slashes env s :
  ((length (queue s) < 5)%nat -> triggerGuillotine env s = s) /\
  ((5 <= length (queue s))%nat ->
     let q := queue s in
     let q' := queue (triggerGuillotine env s) in
     let cands := candidatesOf q in
     let vs := victimsOf env q in
     (exists ranked : list (nat * Player),
        (forall i p, (i, p) ∈ ranked <-> q !! i = Some p /\ slashed p = false) /\
        NoDup ranked.*1 /\
        StronglySorted
          (fun a b =>
             target b.2 - collected b.2 < target a.2 - collected a.2 \/
             (target b.2 - collected b.2 == target a.2 - collected a.2 /\
              (a.1 < b.1)%nat)) ranked /\
        cands = take 30 ranked) /\
     (length cands <= 30)%nat /\
     (forall r, r ∈ cands -> q !! r.1 = Some r.2 /\ slashed r.2 = false) /\
     vs ⊆+ cands /\
     NoDup vs.*1 /\
     length vs = Nat.min 10 (length cands) /\
     length q' = length q /\
     (forall r, r ∈ vs ->
        exists p', q' !! r.1 = Some p' /\
          target p' = target r.2 * (80 # 100) /\
          slashed p' = true /\
          collected p' = collected r.2) /\
     (forall i, i ∉ vs.*1 -> q' !! i = q !! i)).
Proof.
  split.
  - intros Hlt. unfold triggerGuillotine.
    destruct (Nat.ltb_spec (length (queue s)) 5) as [_|?]; [reflexivity | lia].
  - intros Hlen q q' cands vs.
    destruct (victimsOf_spec env q) as (Hsub & Hnd & Hcount).
    assert (Eq' : q' = slashAll vs q) by (apply triggerGuillotine_crowd, Hlen).
    split; [|split; [|split; [|split; [|split; [|split; [|split; [|split]]]]]]].
    + exists (sort byLiability (filter notSlashed (refs q))).
      split; [|split; [|split; [|reflexivity]]].
      * intros i p. rewrite sort_perm, list_elem_of_filter, elem_of_refs.
        unfold notSlashed. cbn [fst snd]. tauto.
      * eapply submseteq_NoDup; [|apply (refs_fst q)].
        apply fmap_submseteq. rewrite sort_perm.
        apply sublist_submseteq, sublist_filter.
      * apply (sort_sorted (filter notSlashed (refs q))).
        eapply StronglySorted_sublist; [|apply refs_sorted].
        apply sublist_filter.
    + unfold cands, candidatesOf. rewrite length_take. lia.
    + apply candidatesOf_notSlashed.
    + exact Hsub.
    + exact Hnd.
    + exact Hcount.
    + rewrite Eq'. apply slashAll_length.
    + intros r Hr.
      assert (Hc : r ∈ cands) by (eapply elem_of_submseteq; eassumption).
      apply candidatesOf_notSlashed in Hc as [Hq _].
      exists (slash r.2). rewrite Eq'.
      rewrite slashAll_lookup_victim; [|exact Hnd|].
      * fold q. rewrite Hq. repeat split.
      * apply list_elem_of_fmap. exists r. split; [reflexivity | exact Hr].
    + intros i Hi. rewrite Eq'. apply slashAll_lookup_other, Hi.
Qed.

(** C9.  The Guillotine keeps the length of the queue and, place by place,
    every member's id, deposit, collected amount, entry round, timestamp
    and entry multiplier; a member it did not pick is the same object as
    before; and every field of the state other than the queue is
    unchanged. *)
Theorem guillotine_frame env s :
  let s' := triggerGuillotine env s in
  length (queue s') = length (queue s) /\
  Forall2 sameButTarget (queue s) (queue s') /\
  (forall i, i ∉ (victimsOf env (queue s)).*1 -> queue s' !! i = queue s !! i) /\
  protocolBalance s' = protocolBalance s /\
  totalDeposited s' = totalDeposited s /\
  historyCount s' = historyCount s /\
  historySum s' = historySum s /\
  currentRound s' = currentRound s /\
  tickCount s' = tickCount s /\
  chartData s' = chartData s.
Proof.
  intros s'. pose proof (triggerGuillotine_frame env s) as Hf. fold s' in Hf.
  split; [symmetry; eapply Forall2_length, Hf|].
  split; [exact Hf|].
  split.
  - intros i Hi. subst s'.
    destruct (triggerGuillotine_queue env s) as [-> | ->]; [reflexivity|].
    apply slashAll_lookup_other, Hi.
  - subst s'. rewrite (triggerGuillotine_ledger env s). repeat split.
Qed.

(** ** Scenario 1 *)

(** C1.  From an empty queue with no exits recorded, under [scenario1]:
    a deposit of 100 is charged 1, nets 99 and leaves one participant
    (100, 200, 0); a deposit of 250 after it is charged 2.5, nets 247.5,
    pays the first participant 200, leaves 47.5 that no participant gets
    and that the reserve does not get either (the reserve grows by the fee
    alone), counts one exit worth 200 and leaves one participant
    (250, 500, 0). *)
Theorem scenario1_two_deposits (td pb : Q) (cr : Z) (cd : list ChartDataPoint)
        (tk : Z) (env1 env2 : Env) :
  let s0 := mkState [] 0 0 td pb cr cd tk in
  let t1 := depositTrace scenario1 env1 s0 100 false in
  let s1 := processDeposit scenario1 env1 s0 100 false in
  let t2 := depositTrace scenario1 env2 s1 250 false in
  let s2 := processDeposit scenario1 env2 s1 250 false in
  (tr_fee t1 == 1 /\ tr_net t1 == 99 /\
   exists p, queue s1 = [p] /\
     deposit p == 100 /\ target p == 200 /\ collected p == 0) /\
  (tr_fee t2 == 25 # 10 /\ tr_net t2 == 2475 # 10 /\
   (exists p, tr_afterHead t2 = [p] /\ collected p == 200) /\
   tr_leftover t2 == 475 # 10 /\
   protocolBalance s2 == protocolBalance s1 + (25 # 10) /\
   (exists p, sw_gone (tr_sweep t2) = [p] /\
      deposit p == 100 /\ target p == 200 /\ collected p == 200) /\
   historyCount s2 = 1%Z /\ historySum s2 == 200 /\
   exists p, queue s2 = [p] /\
     deposit p == 250 /\ target p == 500 /\ collected p == 0).
Proof.
  intros s0 t1 s1 t2 s2. split.
  - split; [reflexivity|]. split; [reflexivity|].
    eexists. split; [reflexivity|]. repeat split; reflexivity.
  - split; [reflexivity|]. split; [reflexivity|].
    split; [eexists; split; reflexivity|].
    split; [reflexivity|].
    split.
    { transitivity (protocolBalance s1 + actualFee 250); [reflexivity|].
      apply Qplus_inj_l. reflexivity. }
    split; [eexists; split; [reflexivity|]; repeat split; reflexivity|].
    split; [reflexivity|]. split; [reflexivity|].
    eexists. split; [reflexivity|]. repeat split; reflexivity.
Qed.

(** ** The entry multiplier *)

(** C8.  The participant that [processDeposit] creates has its target
    computed with the effective multiplier, but its [multiplier] field is
    left unset, whatever the settings, the state and the amount. *)
Theorem newPlayer_multiplier_unset cfg env s amount isSystem :
  let t := depositTrace cfg env s amount isSystem in
  tr_new t = newPlayerOf cfg env (tr_start t) amount isSystem /\
  queue (tr_pushed t) = tr_afterHead t ++ [tr_new t] /\
  target (tr_new t) =
    amount * effectiveMultiplier cfg isSystem (length (queue (tr_start t))) /\
  multiplier (tr_new t) = None.
Proof. repeat split. Qed.

(** The same on the first deposit of scenario 1: the participant in the
    queue was given the multiplier 2 and records none. *)
Lemma newPlayer_multiplier_unset_scenario1 env :
  exists p, queue (processDeposit scenario1 env initialState 100 false) = [p] /\
    target p == deposit p * 2 /\
    multiplier p = None.
Proof. eexists. split; [reflexivity|]. split; reflexivity. Qed.

(** ** The exit sweep *)

Ltac sweep_case p :=
  unfold sweepStep;
  destruct (Qlt_le_dec (collected p) (target p - EXIT_EPSILON)) as [?Hs|?Hs];
  destruct (decide (stays p)) as [?Hd|?Hd]; unfold stays in *;
  try (exfalso; lra); simpl.

Section Sweep.
Variables (cfg : Settings) (env : Env) (isSystem : bool).

Local Abbreviation step := (sweepStep cfg env isSystem).

Lemma sweep_fold_next (q : list Player) (a : Sweep) :
  sw_next (foldl step a q) = sw_next a ++ filter stays q.
Proof.
  revert a. induction q as [|p q IH]; intros a; simpl.
  - rewrite app_nil_r. reflexivity.
  - rewrite IH. rewrite filter_cons.
    sweep_case p.
    + rewrite <- app_assoc. reflexivity.
    + reflexivity.
Qed.

Lemma sweep_fold_gone (q : list Player) (a : Sweep) :
  sw_gone (foldl step a q) =
  sw_gone a ++ (clamp <$> filter (fun p => ~ stays p) q).
Proof.
  revert a. induction q as [|p q IH]; intros a; simpl.
  - rewrite app_nil_r. reflexivity.
  - rewrite IH. rewrite filter_cons.
    unfold sweepStep.
    destruct (Qlt_le_dec (collected p) (target p - EXIT_EPSILON)) as [Hs|Hs];
      destruct (decide (~ stays p)) as [Hd|Hd]; unfold stays in *; simpl.
    + exfalso. apply Hd. exact Hs.
    + reflexivity.
    + rewrite <- app_assoc. reflexivity.
    + exfalso. apply Hd. apply Qle_not_lt. exact Hs.
Qed.

Lemma sweep_fold_count (q : list Player) (a : Sweep) :
  sw_count (foldl step a q) =
  (sw_count a + Z.of_nat (length (filter (fun p => ~ stays p) q)))%Z.
Proof.
  revert a. induction q as [|p q IH]; intros a; simpl.
  - lia.
  - rewrite IH. rewrite filter_cons.
    unfold sweepStep.
    destruct (Qlt_le_dec (collected p) (target p - EXIT_EPSILON)) as [Hs|Hs];
      destruct (decide (~ stays p)) as [Hd|Hd]; unfold stays in *; simpl.
    + exfalso. apply Hd. exact Hs.
    + lia.
    + lia.
    + exfalso. apply Hd. apply Qle_not_lt. exact Hs.
Qed.

Lemma sweepStep_balance_mono (a : Sweep) (p : Player) :
  sw_balance a <= sw_balance (step a p).
Proof.
  unfold sweepStep.
  destruct (Qlt_le_dec (collected p) (target p - EXIT_EPSILON)); simpl.
  - apply Qle_refl.
  - destruct (taxGate cfg isSystem && isFastExit env (sw_now a) (set_collected (target p) p));
      [|apply Qle_refl].
    destruct (Qlt_le_dec 0 (target p - deposit p)) as [Hp|Hp];
      [|apply Qle_refl].
    unfold TAX_SHARE. nra.
Qed.

Lemma sweep_fold_balance_mono (q : list Player) (a : Sweep) :
  sw_balance a <= sw_balance (foldl step a q).
Proof.
  revert a. induction q as [|p q IH]; intros a; simpl.
  - apply Qle_refl.
  - eapply Qle_trans; [apply sweepStep_balance_mono | apply IH].
Qed.
End Sweep.

(** ** The ledger across one deposit *)

Lemma guillotineCheck_ledger cfg env s :
  guillotineCheck cfg env s =
  mkState (queue (guillotineCheck cfg env s)) (historyCount s) (historySum s)
          (totalDeposited s) (protocolBalance s) (currentRound s) (chartData s)
          (tickCount s + 1)%Z.
Proof.
  unfold guillotineCheck.
  destruct (guillotineEnabled cfg && _); [|reflexivity].
  rewrite triggerGuillotine_ledger at 1. reflexivity.
Qed.

Lemma guillotineCheck_frame cfg env s :
  Forall2 sameButTarget (queue s) (queue (guillotineCheck cfg env s)).
Proof.
  unfold guillotineCheck.
  destruct (guillotineEnabled cfg && _).
  - apply (triggerGuillotine_frame env (set_tickCount (tickCount s + 1)%Z s)).
  - simpl. apply Forall2_same_length_lookup_2; [reflexivity|].
    intros j x y Hx Hy. rewrite Hx in Hy. injection Hy as <-.
    apply sameButTarget_refl.
Qed.

Lemma guillotineCheck_off cfg env s :
  guillotineEnabled cfg = false ->
  guillotineCheck cfg env s = set_tickCount (tickCount s + 1)%Z s.
Proof. intros H. unfold guillotineCheck. rewrite H. reflexivity. Qed.

Lemma processDeposit_tickCount cfg env s amount isSystem :
  tickCount (processDeposit cfg env s amount isSystem) = (tickCount s + 1)%Z.
Proof.
  unfold processDeposit, depositTrace. simpl.
  rewrite guillotineCheck_ledger. reflexivity.
Qed.

Lemma processDeposit_totalDeposited cfg env s amount isSystem :
  totalDeposited (processDeposit cfg env s amount isSystem) =
  totalDeposited s + amount.
Proof.
  unfold processDeposit, depositTrace. simpl.
  rewrite guillotineCheck_ledger. reflexivity.
Qed.

Lemma processDeposit_queue cfg env s amount isSystem :
  let t := depositTrace cfg env s amount isSystem in
  queue (processDeposit cfg env s amount isSystem) =
  filter stays (tr_afterHead t ++ [tr_new t]).
Proof.
  unfold processDeposit, depositTrace, cleanupSweep. simpl.
  rewrite sweep_fold_next. reflexivity.
Qed.

Lemma processDeposit_balance_lower cfg env s amount isSystem :
  protocolBalance s + feeOf amount isSystem <=
  protocolBalance (processDeposit cfg env s amount isSystem).
Proof.
  unfold processDeposit, depositTrace, cleanupSweep. simpl.
  eapply Qle_trans; [|apply sweep_fold_balance_mono]. simpl.
  rewrite guillotineCheck_ledger. simpl.
  unfold feeOf. destruct isSystem; lra.
Qed.

Lemma last_pushChart pt c : last (pushChart pt c) = Some pt.
Proof.
  unfold pushChart.
  destruct (Nat.ltb_spec 100 (length (c ++ [pt]))) as [Hlong|_];
    [|apply last_snoc].
  destruct c as [|x c]; simpl in *.
  - lia.
  - rewrite drop_0. apply last_snoc.
Qed.

Lemma processDeposit_chart cfg env s amount isSystem :
  let s' := processDeposit cfg env s amount isSystem in
  last (chartData s') =
  Some (mkPoint (totalDeposited s') (length (queue s')) (totalLiability (queue s'))).
Proof.
  unfold processDeposit, depositTrace. simpl. apply last_pushChart.
Qed.

(** ** Credits *)

Lemma creditedOnly_refl p : creditedOnly p p.
Proof. repeat split. apply Qle_refl. Qed.

Lemma creditedOnly_credit x p : 0 <= x -> creditedOnly p (credit x p).
Proof. intros Hx. repeat split. simpl. lra. Qed.

Lemma Forall2_creditedOnly_refl (q : list Player) : Forall2 creditedOnly q q.
Proof. induction q; constructor; auto using creditedOnly_refl. Qed.

Lemma yieldShare_pos (yieldPool : Q) (n : nat) :
  0 < yieldPool -> (0 < n)%nat -> 0 < yieldPool / inject_Z (Z.of_nat n).
Proof.
  intros Hy Hn. apply Qlt_shift_div_l.
  - change 0 with (inject_Z 0). rewrite <- Zlt_Qlt. lia.
  - lra.
Qed.

Lemma distributeYield_credits (yieldPool : Q) (q : list Player) :
  Forall2 creditedOnly q (distributeYield yieldPool q).
Proof.
  unfold distributeYield.
  destruct (Qlt_le_dec 0 yieldPool) as [Hy|_];
    [|apply Forall2_creditedOnly_refl].
  destruct q as [|p0 q0] eqn:E; [constructor|]. rewrite <- E.
  assert (Hn : (0 < length q)%nat) by (rewrite E; simpl; lia).
  pose proof (yieldShare_pos yieldPool (length q) Hy Hn) as Hshare.
  generalize dependent (yieldPool / inject_Z (Z.of_nat (length q))).
  intros share Hshare. clear E Hn.
  induction q as [|p q IH]; simpl; constructor; [|exact IH].
  apply creditedOnly_credit. lra.
Qed.

Lemma distributeHead_credits (remaining : Q) (q : list Player) :
  Forall2 creditedOnly q (distributeHead remaining q).1.
Proof.
  revert remaining. induction q as [|p q IH]; intros remaining; simpl.
  - constructor.
  - destruct (Qlt_le_dec 0 remaining) as [Hr|Hr];
      [|apply Forall2_creditedOnly_refl].
    destruct (Qlt_le_dec 0 (target p - collected p)) as [Hn|Hn].
    + destruct (Qlt_le_dec remaining (target p - collected p)) as [Hlt|Hge].
      * specialize (IH 0). destruct (distributeHead 0 q) as [rest' rem].
        simpl in *. constructor; [|exact IH].
        apply creditedOnly_credit. lra.
      * specialize (IH (remaining - (target p - collected p))).
        destruct (distributeHead _ q) as [rest' rem].
        simpl in *. constructor; [|exact IH].
        apply creditedOnly_credit. lra.
    + specialize (IH remaining). destruct (distributeHead remaining q) as [rest' rem].
      simpl in *. constructor; [apply creditedOnly_refl | exact IH].
Qed.

(** What a deposit does to the members it found: the Guillotine may have
    cut targets, then credits were added. *)
Lemma afterHead_shape cfg env s amount isSystem :
  let t := depositTrace cfg env s amount isSystem in
  exists q2,
    Forall2 sameButTarget (queue s) q2 /\
    Forall2 creditedOnly q2 (tr_afterYield t) /\
    Forall2 creditedOnly (tr_afterYield t) (tr_afterHead t).
Proof.
  exists (queue (guillotineCheck cfg env s)).
  split; [apply guillotineCheck_frame|].
  split; [apply distributeYield_credits | apply distributeHead_credits].
Qed.

Lemma afterHead_nonNegative cfg env s amount isSystem :
  nonNegative (queue s) ->
  nonNegative (tr_afterHead (depositTrace cfg env s amount isSystem)).
Proof.
  intros H0.
  destruct (afterHead_shape cfg env s amount isSystem) as (q2 & H1 & H2 & H3).
  unfold nonNegative in *. rewrite Forall_lookup in H0 |- *.
  intros i p3 Hp3.
  destruct (Forall2_lookup_r _ _ _ _ _ H3 Hp3) as (p2 & Hp2 & C3).
  destruct (Forall2_lookup_r _ _ _ _ _ H2 Hp2) as (p1 & Hp1 & C2).
  destruct (Forall2_lookup_r _ _ _ _ _ H1 Hp1) as (p0 & Hp0 & C1).
  specialize (H0 i p0 Hp0).
  destruct C1 as (_ & _ & E1 & _). destruct C2 as (_ & _ & _ & L2 & _).
  destruct C3 as (_ & _ & _ & L3 & _). rewrite E1 in L2. lra.
Qed.

Lemma afterHead_ids cfg env s amount isSystem :
  id <$> tr_afterHead (depositTrace cfg env s amount isSystem) = id <$> queue s.
Proof.
  destruct (afterHead_shape cfg env s amount isSystem) as (q2 & H1 & H2 & H3).
  apply list_eq_same_length with (length (queue s)).
  - rewrite length_fmap. reflexivity.
  - rewrite length_fmap. rewrite <- (Forall2_length _ _ _ H3),
      <- (Forall2_length _ _ _ H2), <- (Forall2_length _ _ _ H1). reflexivity.
  - intros i x y _ Hx Hy. rewrite list_lookup_fmap in Hx, Hy.
    destruct (tr_afterHead _ !! i) as [p3|] eqn:Hp3; [|discriminate].
    destruct (Forall2_lookup_r _ _ _ _ _ H3 Hp3) as (p2 & Hp2 & C3).
    destruct (Forall2_lookup_r _ _ _ _ _ H2 Hp2) as (p1 & Hp1 & C2).
    destruct (Forall2_lookup_r _ _ _ _ _ H1 Hp1) as (p0 & Hp0 & C1).
    rewrite Hp0 in Hy. simpl in Hx, Hy.
    destruct C1 as (E1 & _). destruct C2 as (E2 & _). destruct C3 as (E3 & _).
    congruence.
Qed.

(** ** Reachable states *)

Lemma settled_nonNegative q : settled q -> nonNegative q.
Proof. intros H. eapply Forall_impl; [exact H|]. simpl. tauto. Qed.

Lemma processDeposit_settled cfg env s amount isSystem :
  nonNegative (queue s) ->
  settled (queue (processDeposit cfg env s amount isSystem)).
Proof.
  intros H0. rewrite processDeposit_queue.
  apply Forall_forall. intros p Hp.
  apply list_elem_of_filter in Hp as [Hstay Hin]. split; [|exact Hstay].
  apply elem_of_app in Hin as [Hin | Hin].
  - pose proof (afterHead_nonNegative cfg env s amount isSystem H0) as Hn.
    unfold nonNegative in Hn. rewrite Forall_forall in Hn. apply Hn, Hin.
  - apply list_elem_of_singleton in Hin as ->. simpl. lra.
Qed.

Lemma wipeAndRestart_queue s : queue (wipeAndRestart s) = [].
Proof. reflexivity. Qed.

Lemma handleMidnightReset_settled cfg env s :
  settled (queue (handleMidnightReset cfg env s)).
Proof.
  unfold handleMidnightReset, protocolSeed.
  destruct (Qlt_le_dec _ 100).
  - rewrite wipeAndRestart_queue. constructor.
  - apply processDeposit_settled. simpl. constructor.
Qed.

Lemma reachable_settled s : reachable s -> settled (queue s).
Proof.
  induction 1 as [|cfg env amount s Hr IH|cfg env s Hr IH|s Hr IH].
  - constructor.
  - apply processDeposit_settled, settled_nonNegative, IH.
  - apply handleMidnightReset_settled.
  - constructor.
Qed.

(** C2.  Between calls, every queued participant of a reachable state has
    [0 <= collected <= target + 0.01]; the settings of each call are
    arbitrary, so the yield drip and the Guillotine are covered. *)
Theorem reachable_collected_bounds s :
  reachable s ->
  Forall (fun p => 0 <= collected p /\ collected p <= target p + (1 # 100))
         (queue s).
Proof.
  intros Hr. eapply Forall_impl; [apply reachable_settled, Hr|].
  intros p [H0 Hs]. unfold stays, EXIT_EPSILON in Hs. simpl. split; lra.
Qed.

(** ** The protocol seed *)

Lemma uuid_not_seed (u : uuid) : uuid_text u <> PROTOCOL_SEED.
Proof.
  intros E. pose proof (uuid_shape u) as H. rewrite E in H. discriminate H.
Qed.

Lemma seedCount_filter (R : Player -> Prop) `{forall p, Decision (R p)} q :
  (seedCount (filter R q) <= seedCount q)%nat.
Proof.
  unfold seedCount. induction q as [|p q IH]; simpl; [lia|].
  rewrite !filter_cons.
  destruct (decide (R p)); destruct (decide (isSeed p)); simpl;
    rewrite ?filter_cons; repeat case_decide; simpl; try tauto; lia.
Qed.

Lemma seedCount_ids (q1 q2 : list Player) :
  id <$> q1 = id <$> q2 -> seedCount q1 = seedCount q2.
Proof.
  unfold seedCount. revert q2.
  induction q1 as [|p1 q1 IH]; intros [|p2 q2] E; simpl in E;
    try discriminate; [reflexivity|].
  injection E as Eid Erest. rewrite !filter_cons.
  specialize (IH q2 Erest).
  destruct (decide (isSeed p1)) as [H1|H1]; destruct (decide (isSeed p2)) as [H2|H2];
    unfold isSeed in *; simpl; congruence.
Qed.

Lemma seedCount_app q1 q2 : seedCount (q1 ++ q2) = (seedCount q1 + seedCount q2)%nat.
Proof. unfold seedCount. rewrite filter_app, length_app. reflexivity. Qed.

Lemma processDeposit_seedCount cfg env s amount isSystem :
  (seedCount (queue (processDeposit cfg env s amount isSystem)) <=
   seedCount (queue s) + (if isSystem then 1 else 0))%nat.
Proof.
  rewrite processDeposit_queue.
  etransitivity; [apply seedCount_filter|].
  rewrite seedCount_app, (seedCount_ids _ _ (afterHead_ids cfg env s amount isSystem)).
  apply Nat.add_le_mono_l.
  unfold seedCount. rewrite filter_cons. simpl.
  destruct isSystem; case_decide as Hd; simpl; try lia.
  exfalso. unfold isSeed in Hd. simpl in Hd. exact (uuid_not_seed _ Hd).
Qed.

(** C10.  A reachable queue holds at most one participant whose id is
    ['PROTOCOL_SEED']. *)
Theorem reachable_one_seed s :
  reachable s -> (seedCount (queue s) <= 1)%nat.
Proof.
  induction 1 as [|cfg env amount s Hr IH|cfg env s Hr IH|s Hr IH].
  - simpl. unfold seedCount. simpl. lia.
  - pose proof (processDeposit_seedCount cfg env s amount false) as Hle.
    cbv beta iota in Hle. lia.
  - unfold handleMidnightReset, protocolSeed.
    destruct (Qlt_le_dec _ 100).
    + rewrite wipeAndRestart_queue. unfold seedCount. simpl. lia.
    + etransitivity; [apply processDeposit_seedCount|].
      cbv beta iota. unfold seedCount. simpl. lia.
  - unfold seedCount. simpl. lia.
Qed.

(** ** Deposits are not validated *)

(** C5, as stated, fails: a deposit of 0 into the initial state is
    processed like any other. *)
Lemma zero_deposit_is_processed :
  let s' := processDeposit scenario1 (envAt 0) initialState 0 false in
  ~ untouched initialState s' /\
  tickCount s' = 1%Z /\
  protocolBalance s' == 1001 /\
  historyCount s' = 1%Z /\
  length (chartData s') = 1%nat.
Proof.
  split; [|repeat split; reflexivity].
  intros (_ & _ & _ & Htick & _). discriminate Htick.
Qed.

(** C5, amended.  [processDeposit] has no rejection path.  A deposit whose
    amount is zero or negative still advances the event counter, adds the
    amount to [totalDeposited], appends a chart sample and, when it is not
    a system deposit, is charged the minimum fee of 1, which reaches the
    reserve. *)
Theorem nonpositive_deposit_is_processed cfg env s amount isSystem :
  amount <= 0 ->
  let s' := processDeposit cfg env s amount isSystem in
  tickCount s' = (tickCount s + 1)%Z /\
  totalDeposited s' = totalDeposited s + amount /\
  last (chartData s') =
    Some (mkPoint (totalDeposited s') (length (queue s')) (totalLiability (queue s'))) /\
  (isSystem = false ->
     actualFee amount == 1 /\ protocolBalance s + 1 <= protocolBalance s').
Proof.
  intros Hneg s'. subst s'.
  split; [apply processDeposit_tickCount|].
  split; [apply processDeposit_totalDeposited|].
  split; [apply processDeposit_chart|].
  intros ->.
  assert (Hfee : actualFee amount == 1).
  { unfold actualFee, FEE_PERCENT. apply Q.max_l. nra. }
  split; [exact Hfee|].
  pose proof (processDeposit_balance_lower cfg env s amount false) as Hlow.
  unfold feeOf in Hlow. rewrite Hfee in Hlow. exact Hlow.
Qed.

Lemma nonpositive_deposit_is_processed_witness :
  let s' := processDeposit scenario1 (envAt 0) initialState (-5) false in
  -5 <= 0 /\
  tickCount s' = 1%Z /\
  totalDeposited s' = 0 + -5 /\
  actualFee (-5) == 1 /\
  protocolBalance initialState + 1 <= protocolBalance s'.
Proof.
  assert (H : -5 <= 0) by (vm_compute; discriminate).
  destruct (nonpositive_deposit_is_processed scenario1 (envAt 0) initialState
              (-5) false H) as (Ht & Hd & _ & Hf).
  destruct (Hf eq_refl) as [Hfee Hbal].
  split; [exact H|]. split; [exact Ht|]. split; [exact Hd|].
  split; [exact Hfee | exact Hbal].
Defined.

(** ** Conservation in the head walk *)

(** Replaces every [Qmax] and [Qmin] by a fresh number that satisfies its
    specification, then splits the cases for linear arithmetic. *)
Ltac name_extremum :=
  match goal with
  | |- context [Qmax ?a ?b] =>
      pose proof (Q.max_spec a b); generalize dependent (Qmax a b); intros
  | |- context [Qmin ?a ?b] =>
      pose proof (Q.min_spec a b); generalize dependent (Qmin a b); intros
  | H : context [Qmax ?a ?b] |- _ =>
      pose proof (Q.max_spec a b); generalize dependent (Qmax a b); intros
  | H : context [Qmin ?a ?b] |- _ =>
      pose proof (Q.min_spec a b); generalize dependent (Qmin a b); intros
  end.

Ltac split_extrema :=
  repeat match goal with
         | H : (_ /\ _) \/ (_ /\ _) |- _ => destruct H as [[? ?]|[? ?]]
         end.

Ltac extrema := repeat name_extremum; split_extrema; try lra.

Lemma totalNeed_nonneg q : 0 <= totalNeed q.
Proof.
  induction q as [|p q IH]; cbn [totalNeed]; [lra|]. extrema.
Qed.

Lemma distributeHead_total (remaining : Q) (q : list Player) :
  sumCollected (distributeHead remaining q).1 ==
    sumCollected q + Qmax 0 (Qmin remaining (totalNeed q)) /\
  (distributeHead remaining q).2 ==
    remaining - Qmax 0 (Qmin remaining (totalNeed q)).
Proof.
  revert remaining. induction q as [|p q IH]; intros remaining;
    cbn [distributeHead totalNeed].
  - cbn [fst snd sumCollected]. extrema.
  - pose proof (totalNeed_nonneg q) as Hq.
    destruct (Qlt_le_dec 0 remaining) as [Hr|Hr].
    + destruct (Qlt_le_dec 0 (target p - collected p)) as [Hn|Hn].
      * destruct (Qlt_le_dec remaining (target p - collected p)) as [Hlt|Hge].
        -- destruct (IH 0) as [IH1 IH2].
           destruct (distributeHead 0 q) as [rest' rem].
           cbn [fst snd sumCollected credit set_collected collected] in *.
           extrema.
        -- destruct (IH (remaining - (target p - collected p))) as [IH1 IH2].
           destruct (distributeHead _ q) as [rest' rem].
           cbn [fst snd sumCollected credit set_collected collected] in *.
           extrema.
      * destruct (IH remaining) as [IH1 IH2].
        destruct (distributeHead remaining q) as [rest' rem].
        cbn [fst snd sumCollected] in *.
        extrema.
    + cbn [fst snd sumCollected]. extrema.
Qed.

(** C7, as stated, fails.  A deposit of 0.5 pays the minimum fee of 1 and
    nets -0.5: nothing is credited, while [min(netAmount, need)] is -0.5.
    And measured on the objects as the call leaves them, a deposit of 100
    (net 99) against a head that needs 99.005 raises its collected amount
    by 99.005, because the sweep sets a leaving member's collected amount
    to its target. *)
Lemma conservation_as_stated_fails :
  (let head := mkPlayer "head" 100 200 0 1 0 false None in
   let t := depositTrace scenario1 (envAt 0)
              (set_queue [head] initialState) (1 # 2) false in
   tr_net t == - (1 # 2) /\
   tr_afterHead t = [head] /\
   queue (tr_final t) = [head; tr_new t] /\
   ~ (sumCollected (tr_afterHead t) - sumCollected [head]
      == Qmin (tr_net t) (totalNeed [head]))) /\
  (let head := mkPlayer "head" 50 100 (995 # 1000) 1 0 false None in
   let t := depositTrace scenario1 (envAt 0)
              (set_queue [head] initialState) 100 false in
   tr_net t == 99 /\
   Qmin (tr_net t) (totalNeed [head]) == 99 /\
   sumCollected (tr_afterHead t) - sumCollected [head] == 99 /\
   queue (tr_final t) = [tr_new t] /\
   sumCollected (sw_gone (tr_sweep t)) - sumCollected [head] == 99005 # 1000).
Proof.
  split.
  - split; [reflexivity|]. split; [reflexivity|]. split; [reflexivity|].
    vm_compute. discriminate.
  - split; [reflexivity|]. split; [reflexivity|]. split; [reflexivity|].
    split; reflexivity.
Qed.

(** C7, amended.  Under the STANDARD strategy with the Guillotine off (the
    decay and tax toggles play no part), a user deposit nets
    [amount - max(1, amount * 0.01)], and the head walk credits the members
    found in the queue with [max(0, min(netAmount, total need))] in total;
    what is not credited is left over.  The sweep then keeps the members
    that stay as the walk left them and sets the collected amount of each
    leaving member to its target. *)
Theorem standard_head_credit cfg env s amount :
  strategy cfg = STANDARD ->
  guillotineEnabled cfg = false ->
  let t := depositTrace cfg env s amount false in
  let net := amount - Qmax 1 (amount * FEE_PERCENT) in
  let credited := Qmax 0 (Qmin net (totalNeed (queue s))) in
  tr_net t = net /\
  length (tr_afterHead t) = length (queue s) /\
  sumCollected (tr_afterHead t) - sumCollected (queue s) == credited /\
  tr_leftover t == net - credited /\
  queue (tr_final t) = filter stays (tr_afterHead t ++ [tr_new t]) /\
  sw_gone (tr_sweep t) =
    clamp <$> filter (fun p => ~ stays p) (tr_afterHead t ++ [tr_new t]).
Proof.
  intros Hstd Hoff t net credited.
  assert (Hwalk : tr_afterHead t = (distributeHead net (queue s)).1 /\
                  tr_leftover t = (distributeHead net (queue s)).2).
  { unfold t, depositTrace. cbn [tr_afterHead tr_leftover].
    unfold headPoolOf, yieldPoolOf. rewrite Hstd.
    rewrite (guillotineCheck_off cfg env s Hoff). cbn [queue set_tickCount].
    unfold distributeYield.
    destruct (Qlt_le_dec 0 0) as [Habs|_]; [exfalso; lra|].
    split; reflexivity. }
  destruct Hwalk as [E1 E2].
  destruct (distributeHead_total net (queue s)) as [T1 T2].
  split; [reflexivity|].
  split.
  { rewrite E1. symmetry. eapply Forall2_length, distributeHead_credits. }
  split; [rewrite E1, T1; fold credited; lra|].
  split; [rewrite E2, T2; fold credited; lra|].
  split; [apply processDeposit_queue|].
  unfold t, depositTrace, cleanupSweep. cbn [tr_sweep tr_afterHead tr_new].
  rewrite sweep_fold_gone. reflexivity.
Qed.

(** ** Settlement *)

Lemma principalNeed_nonneg q : 0 <= principalNeed q.
Proof.
  induction q as [|p q IH]; cbn [principalNeed foldr]; [lra|].
  fold (principalNeed q). extrema.
Qed.

(** The loop of the source pays what the specification's walk pays. *)
Lemma refundWalk_refines (q : list Player) (claimed surplus : Q) :
  claimed == surplus -> 0 <= surplus ->
  Forall2 samePlayer (refundAsClaimed claimed q).1 (refundWalk surplus q).1 /\
  (refundWalk surplus q).2 == (refundAsClaimed claimed q).2.
Proof.
  revert claimed surplus.
  induction q as [|p q IH]; intros claimed surplus Heq Hpos;
    cbn [refundAsClaimed refundWalk fst snd].
  - split; [constructor | lra].
  - set (need := Qmax 0 (deposit p - collected p)).
    assert (Hneed : 0 <= need) by (unfold need; extrema).
    destruct (Qlt_le_dec 0 surplus) as [Hs|Hs].
    + destruct (Qlt_le_dec 0 need) as [Hn|Hn].
      * assert (Hpay : claimed - Qmin claimed need == surplus - Qmin surplus need)
          by extrema.
        assert (Hleft : 0 <= surplus - Qmin surplus need) by extrema.
        destruct (IH _ _ Hpay Hleft) as [IH1 IH2].
        destruct (refundWalk (surplus - Qmin surplus need) q) as [rest' rem].
        cbn [fst snd] in *. split; [|exact IH2].
        constructor; [|exact IH1].
        repeat split. cbn [credit set_collected collected]. extrema.
      * assert (Hpay : claimed - Qmin claimed need == surplus) by extrema.
        destruct (IH _ _ Hpay Hpos) as [IH1 IH2].
        destruct (refundWalk surplus q) as [rest' rem].
        cbn [fst snd] in *. split; [|exact IH2].
        constructor; [|exact IH1].
        repeat split. cbn [credit set_collected collected]. extrema.
    + assert (Hpay : claimed - Qmin claimed need == surplus) by extrema.
      cbn [fst snd]. clear IH.
      assert (Hdry : forall (l : list Player) (c : Q), c == 0 ->
                Forall2 samePlayer (refundAsClaimed c l).1 l /\
                (refundAsClaimed c l).2 == 0).
      { induction l as [|x l IHl]; intros c Hc; cbn [refundAsClaimed fst snd].
        - split; [constructor | exact Hc].
        - set (nx := Qmax 0 (deposit x - collected x)).
          assert (0 <= nx) by (unfold nx; extrema).
          assert (Hc' : c - Qmin c nx == 0) by extrema.
          destruct (IHl _ Hc') as [A B]. split; [|exact B].
          constructor; [|exact A].
          repeat split. cbn [credit set_collected collected]. extrema. }
      assert (Hzero : claimed - Qmin claimed need == 0) by lra.
      destruct (Hdry q _ Hzero) as [A B]. split; [|lra].
      constructor; [|exact A].
      repeat split. cbn [credit set_collected collected]. extrema.
Qed.

(** What is left of the surplus after the walk. *)
Lemma refundAsClaimed_left (q : list Player) (surplus : Q) :
  0 <= surplus ->
  (refundAsClaimed surplus q).2 == Qmax 0 (surplus - principalNeed q).
Proof.
  revert surplus. induction q as [|p q IH]; intros surplus Hpos;
    cbn [refundAsClaimed principalNeed foldr fst snd].
  - extrema.
  - fold (principalNeed q). pose proof (principalNeed_nonneg q) as Hq.
    set (need := Qmax 0 (deposit p - collected p)).
    assert (Hneed : 0 <= need) by (unfold need; extrema).
    assert (Hleft : 0 <= surplus - Qmin surplus need) by extrema.
    rewrite (IH _ Hleft). extrema.
Qed.

(** C3, as stated, fails.  After one settlement of the initial state the
    reserve is 900 and holds no surplus; the next settlement leaves it at
    900 in the refund phase where the claim puts it back to 1000, and ends
    with 800 after the seed where the claim ends with 900. *)
Lemma settlement_below_floor_not_topped_up :
  let s := handleMidnightReset scenario1 (envAt 0) initialState in
  reachable s /\
  protocolBalance s == 900 /\
  surplusOf s == 0 /\
  protocolBalance (refundPhase s) == 900 /\
  ~ (protocolBalance (refundPhase s) == INITIAL_RESERVE + surplusOf s) /\
  protocolBalance (handleMidnightReset scenario1 (envAt 0) s) == 800 /\
  protocolBalance (settlementAsClaimed scenario1 (envAt 0) s) == 900.
Proof.
  split; [apply reach_settle, reach_init|].
  split; [reflexivity|]. split; [reflexivity|]. split; [reflexivity|].
  split; [vm_compute; discriminate|].
  split; reflexivity.
Qed.

(** C3, amended.  With [surplus = max(0, reserve - 1000)]: when the
    surplus is positive the refund phase pays the queue in order, each
    participant [min(surplus left, max(0, deposit - collected))], and sets
    the reserve to 1000 plus what is left, which is
    [max(0, surplus - total refundable principal)]; when there is no
    surplus the refund phase changes nothing, so a reserve below 1000
    stays where it is.  Then the queue is emptied and the round advanced,
    and if the reserve is at least 100, 100 is taken from it and a system
    deposit of 100 is processed. *)
Theorem settlement_steps cfg env s :
  let surplus := Qmax 0 (protocolBalance s - INITIAL_RESERVE) in
  let refunded := refundPhase s in
  let cleared :=
    mkState [] (historyCount s) (historySum s) (totalDeposited s)
            (protocolBalance refunded) (currentRound s + 1)%Z (chartData s)
            (tickCount s) in
  (0 < surplus ->
     Forall2 samePlayer (refundAsClaimed surplus (queue s)).1 (queue refunded) /\
     protocolBalance refunded ==
       INITIAL_RESERVE + (refundAsClaimed surplus (queue s)).2 /\
     protocolBalance refunded ==
       INITIAL_RESERVE + Qmax 0 (surplus - principalNeed (queue s))) /\
  (surplus <= 0 -> refunded = s) /\
  (100 <= protocolBalance refunded ->
     handleMidnightReset cfg env s =
     processDeposit cfg env
       (set_protocolBalance (protocolBalance refunded - 100) cleared) 100 true) /\
  (protocolBalance refunded < 100 -> handleMidnightReset cfg env s = cleared).
Proof.
  intros surplus refunded cleared.
  assert (Hshape : wipeAndRestart refunded = cleared).
  { unfold cleared, refunded, refundPhase.
    destruct (Qlt_le_dec 0 (surplusOf s)); [|reflexivity].
    destruct (refundWalk (surplusOf s) (queue s)). reflexivity. }
  split; [|split; [|split]].
  - intros Hpos. unfold refunded, refundPhase. fold surplus in Hpos.
    change (surplusOf s) with surplus.
    destruct (Qlt_le_dec 0 surplus) as [_|Hle]; [|exfalso; lra].
    assert (H0 : 0 <= surplus) by lra.
    destruct (refundWalk_refines (queue s) surplus surplus (Qeq_refl _) H0)
      as [R1 R2].
    destruct (refundWalk surplus (queue s)) as [q' rem].
    cbn [fst snd queue protocolBalance set_protocolBalance set_queue] in *.
    split; [exact R1|]. split; [lra|].
    rewrite R2, (refundAsClaimed_left _ _ H0). reflexivity.
  - intros Hle. unfold refunded, refundPhase. change (surplusOf s) with surplus.
    destruct (Qlt_le_dec 0 surplus) as [Hpos|_]; [exfalso; lra | reflexivity].
  - intros Hrich. unfold handleMidnightReset. fold refunded. rewrite Hshape.
    unfold protocolSeed.
    destruct (Qlt_le_dec (protocolBalance cleared) 100) as [Hlt|_];
      [|reflexivity].
    exfalso. cbn [protocolBalance cleared] in Hlt. lra.
  - intros Hpoor. unfold handleMidnightReset. fold refunded. rewrite Hshape.
    unfold protocolSeed.
    destruct (Qlt_le_dec (protocolBalance cleared) 100) as [_|Hge];
      [reflexivity|].
    exfalso. cbn [protocolBalance cleared] in Hge. lra.
Qed.

Lemma settlement_steps_witness :
  0 < Qmax 0 (protocolBalance scenario4 - INITIAL_RESERVE) /\
  protocolBalance (refundPhase scenario4) == 1050 /\
  100 <= protocolBalance (refundPhase scenario4) /\
  protocolBalance (handleMidnightReset scenario1 (envAt 0) scenario4) == 950 /\
  refundPhase initialState = initialState.
Proof.
  destruct (settlement_steps scenario1 (envAt 0) scenario4)
    as (Hrefund & _ & Hseed & _).
  destruct (settlement_steps scenario1 (envAt 0) initialState)
    as (_ & Hnone & _ & _).
  assert (Hpos : 0 < Qmax 0 (protocolBalance scenario4 - INITIAL_RESERVE))
    by reflexivity.
  assert (Hrich : 100 <= protocolBalance (refundPhase scenario4))
    by (vm_compute; discriminate).
  assert (Hdry : Qmax 0 (protocolBalance initialState - INITIAL_RESERVE) <= 0)
    by (vm_compute; discriminate).
  destruct (Hrefund Hpos) as (_ & _ & Hbal).
  split; [exact Hpos|]. split; [rewrite Hbal; reflexivity|].
  split; [exact Hrich|]. split; [rewrite (Hseed Hrich); reflexivity|].
  exact (Hnone Hdry).
Defined.

(** ** Winners tax *)

(** C4, as stated, fails.  The seed participant created by a settlement
    leaves during the next user deposit, one millisecond after it was
    created, and the reserve grows by the fee of 2.5 and by a tax of 20 on
    the seed's profit of 100. *)
Lemma seed_participant_is_taxed :
  let s := handleMidnightReset taxSettings (envAt 0) initialState in
  let t := depositTrace taxSettings (envAt 1) s 250 false in
  reachable s /\
  id <$> queue s = [PROTOCOL_SEED] /\
  id <$> sw_gone (tr_sweep t) = [PROTOCOL_SEED] /\
  tr_fee t == 25 # 10 /\
  protocolBalance (tr_final t) == protocolBalance s + tr_fee t + 20 /\
  ~ (protocolBalance (tr_final t) == protocolBalance s + tr_fee t).
Proof.
  split; [apply reach_settle, reach_init|].
  split; [reflexivity|]. split; [reflexivity|]. split; [reflexivity|].
  split; [reflexivity|].
  vm_compute. discriminate.
Qed.

(** C4, amended.  For a member that leaves in the sweep, whatever its id:
    its collected amount is set to its target and stays so; if the tax is
    enabled, the deposit being processed is not a system deposit, the
    reading of [Date.now()] is less than 10000 ms after the member's
    timestamp and [target - deposit] is positive, the reserve grows by
    exactly 20% of that profit; if the deposit being processed is a system
    deposit, or the tax is off, or the exit is not fast, or there is no
    profit, the reserve is not changed by this exit. *)
Theorem winners_tax_on_exit cfg env isSystem (a : Sweep) (p : Player) :
  ~ stays p ->
  let a' := sweepStep cfg env isSystem a p in
  let profit := target p - deposit p in
  let elapsed := (Date_now env (sw_now a) - timestamp p)%Z in
  sw_next a' = sw_next a /\
  sw_gone a' = sw_gone a ++ [set_collected (target p) p] /\
  (winnersTaxEnabled cfg = true -> isSystem = false ->
   (elapsed < 10000)%Z -> 0 < profit ->
   sw_balance a' = sw_balance a + profit * (20 # 100)) /\
  (isSystem = true \/ winnersTaxEnabled cfg = false \/
   (10000 <= elapsed)%Z \/ profit <= 0 ->
   sw_balance a' = sw_balance a).
Proof.
  intros Hexit a' profit elapsed. subst a'. unfold sweepStep.
  destruct (Qlt_le_dec (collected p) (target p - EXIT_EPSILON)) as [Hs|_];
    [contradiction|].
  cbn [sw_next sw_gone sw_balance].
  split; [reflexivity|]. split; [reflexivity|].
  unfold taxGate, isFastExit, FAST_EXIT_MS.
  cbn [timestamp set_collected collected deposit]. fold elapsed profit.
  split.
  - intros -> -> Hfast Hprofit. cbn [andb negb].
    destruct (Z.ltb_spec elapsed 10000) as [_|?]; [|lia].
    destruct (Qlt_le_dec 0 profit) as [_|?]; [reflexivity | exfalso; lra].
  - intros [-> | [-> | [Hslow | Hnone]]].
    + rewrite andb_false_r. reflexivity.
    + reflexivity.
    + destruct (Z.ltb_spec elapsed 10000) as [?|_]; [lia|].
      rewrite andb_false_r. reflexivity.
    + destruct (_ && _); [|reflexivity].
      destruct (Qlt_le_dec 0 profit) as [?|_]; [exfalso; lra | reflexivity].
Qed.

Lemma winners_tax_on_exit_witness :
  let seed := mkPlayer PROTOCOL_SEED 100 200 200 2 0 false None in
  let a := mkSweep [] [] 900 0 0 1 in
  ~ stays seed /\
  sw_balance (sweepStep taxSettings (envAt 1) false a seed) = 900 + (200 - 100) * (20 # 100) /\
  sw_balance (sweepStep taxSettings (envAt 1) true a seed) = 900.
Proof.
  intros seed a.
  assert (Hexit : ~ stays seed) by (vm_compute; discriminate).
  destruct (winners_tax_on_exit taxSettings (envAt 1) false a seed Hexit)
    as (_ & _ & Htax & _).
  destruct (winners_tax_on_exit taxSettings (envAt 1) true a seed Hexit)
    as (_ & _ & _ & Hfree).
  split; [exact Hexit|]. split.
  - apply Htax; [reflexivity | reflexivity | reflexivity | reflexivity].
  - apply Hfree. left. reflexivity.
Defined.

(** Over a whole sweep the reserve grows by the taxes of the leaving
    members and by nothing else. *)
Lemma sweep_fold_balance cfg env isSystem (q : list Player) (a : Sweep) :
  sw_balance (foldl (sweepStep cfg env isSystem) a q) ==
  sw_balance a +
  taxesFrom cfg env isSystem (sw_now a) (filter (fun p => ~ stays p) q).
Proof.
  revert a. induction q as [|p q IH]; intros a; cbn [foldl].
  - cbn [taxesFrom filter]. rewrite filter_nil. cbn [taxesFrom]. lra.
  - rewrite IH, filter_cons. unfold sweepStep.
    destruct (Qlt_le_dec (collected p) (target p - EXIT_EPSILON)) as [Hs|Hs];
      destruct (decide (~ stays p)) as [Hd|Hd]; unfold stays in *.
    + exfalso. apply Hd. exact Hs.
    + cbn [sw_balance sw_now]. reflexivity.
    + cbn [sw_balance sw_now taxesFrom]. unfold isFastExit.
      cbn [timestamp set_collected collected deposit].
      destruct (taxGate cfg isSystem); cbn [andb].
      * destruct (Date_now env (sw_now a) - timestamp p <? FAST_EXIT_MS)%Z.
        -- destruct (Qlt_le_dec 0 (target p - deposit p)) as [Hp|Hp];
             unfold TAX_SHARE in *; extrema.
        -- lra.
      * lra.
    + exfalso. apply Hd. apply Qle_not_lt. exact Hs.
Qed.

(** The reserve after a deposit: the reserve before, the fee and the
    taxes of the members that left. *)
Lemma processDeposit_reserve cfg env s amount isSystem :
  let t := depositTrace cfg env s amount isSystem in
  protocolBalance (processDeposit cfg env s amount isSystem) ==
  protocolBalance s + feeOf amount isSystem +
  taxesFrom cfg env isSystem 1
    (filter (fun p => ~ stays p) (tr_afterHead t ++ [tr_new t])).
Proof.
  unfold processDeposit, depositTrace, cleanupSweep.
  cbn [tr_final tr_afterHead tr_new protocolBalance queue].
  rewrite sweep_fold_balance. cbn [sw_balance sw_now].
  rewrite guillotineCheck_ledger. cbn [protocolBalance].
  unfold feeOf. destruct isSystem; lra.
Qed.

(** The reserve a deposit leaves behind is the balance the sweep ends
    with, started from the reserve plus the fee. *)
Lemma processDeposit_balance_is_sweep cfg env s amount isSystem :
  let t := depositTrace cfg env s amount isSystem in
  protocolBalance (processDeposit cfg env s amount isSystem) =
    sw_balance (foldl (sweepStep cfg env isSystem)
                      (mkSweep [] [] (protocolBalance (tr_pushed t))
                               (historyCount (tr_pushed t))
                               (historySum (tr_pushed t)) 1%nat)
                      (tr_afterHead t ++ [tr_new t])) /\
  protocolBalance (tr_pushed t) =
    if isSystem then protocolBalance s else protocolBalance s + actualFee amount.
Proof.
  split; [reflexivity|].
  unfold depositTrace. cbn [tr_pushed protocolBalance].
  rewrite guillotineCheck_ledger. reflexivity.
Qed.

(** ** Concrete runs *)

(** The ranking puts the tied members in queue order and leaves the
    slashed one out; with every random number 0 the victims are drawn from
    the front of the pool. *)
Example crowd_ranking :
  (candidatesOf crowd).*1 = [1; 3; 4; 0; 5]%nat /\
  (victimsOf (envAt 0) crowd).*1 = [1; 3; 4; 0; 5]%nat /\
  Forall2 Qeq (target <$> queue (triggerGuillotine (envAt 0) crowdState))
          [160; 480; 100; 400; 400; 16] /\
  slashed <$> queue (triggerGuillotine (envAt 0) crowdState)
    = [true; true; true; true; true; true].
Proof.
  split; [reflexivity|]. split; [reflexivity|]. split; [|reflexivity].
  repeat constructor.
Qed.

Lemma guillotine_selects_and_slashes_witness :
  ((length (queue initialState) < 5)%nat /\
   triggerGuillotine (envAt 0) initialState = initialState) /\
  ((5 <= length (queue crowdState))%nat /\
   NoDup (victimsOf (envAt 0) crowd).*1 /\
   length (victimsOf (envAt 0) crowd) = Nat.min 10 (length (candidatesOf crowd)) /\
   length (queue (triggerGuillotine (envAt 0) crowdState)) = length crowd).
Proof.
  assert (Hfew : (length (queue initialState) < 5)%nat) by (simpl; lia).
  assert (Hmany : (5 <= length (queue crowdState))%nat) by (simpl; lia).
  destruct (guillotine_selects_and_slashes (envAt 0) initialState) as [Hnoop _].
  destruct (guillotine_selects_and_slashes (envAt 0) crowdState) as [_ Hcut].
  destruct (Hcut Hmany) as (_ & _ & _ & _ & Hnd & Hcount & Hlen & _).
  split; [split; [exact Hfew | exact (Hnoop Hfew)]|].
  split; [exact Hmany|]. split; [exact Hnd|]. split; [exact Hcount | exact Hlen].
Defined.

Lemma sampleRun_reachable : reachable sampleRun.
Proof.
  unfold sampleRun.
  apply reach_deposit, reach_settle, reach_deposit, reach_deposit, reach_init.
Defined.

Lemma reachable_collected_bounds_witness :
  reachable sampleRun /\
  Forall (fun p => 0 <= collected p /\ collected p <= target p + (1 # 100))
         (queue sampleRun).
Proof.
  split; [exact sampleRun_reachable|].
  exact (reachable_collected_bounds sampleRun sampleRun_reachable).
Defined.

Lemma reachable_one_seed_witness :
  reachable sampleRun /\ (seedCount (queue sampleRun) <= 1)%nat.
Proof.
  split; [exact sampleRun_reachable|].
  exact (reachable_one_seed sampleRun sampleRun_reachable).
Defined.

Lemma standard_head_credit_witness :
  let s := processDeposit scenario1 (envAt 0) initialState 100 false in
  let t := depositTrace scenario1 (envAt 1) s 250 false in
  strategy scenario1 = STANDARD /\
  guillotineEnabled scenario1 = false /\
  sumCollected (tr_afterHead t) - sumCollected (queue s) ==
    Qmax 0 (Qmin (250 - Qmax 1 (250 * FEE_PERCENT)) (totalNeed (queue s))) /\
  tr_leftover t ==
    250 - Qmax 1 (250 * FEE_PERCENT)
    - Qmax 0 (Qmin (250 - Qmax 1 (250 * FEE_PERCENT)) (totalNeed (queue s))).
Proof.
  intros s t.
  destruct (standard_head_credit scenario1 (envAt 1) s 250 eq_refl eq_refl)
    as (_ & _ & Hsum & Hleft & _).
  split; [reflexivity|]. split; [reflexivity|].
  split; [exact Hsum | exact Hleft].
Defined.

(** * Further properties of the engine *)

(** ** The chart *)

Lemma pushChart_length pt c :
  (length c <= 100)%nat -> (length (pushChart pt c) <= 100)%nat.
Proof.
  intros Hc. unfold pushChart.
  destruct (Nat.ltb_spec 100 (length (c ++ [pt]))) as [Hlong|Hshort].
  - rewrite length_drop, length_app. simpl. lia.
  - exact Hshort.
Qed.

Lemma processDeposit_chartData cfg env s amount isSystem :
  exists pt,
    chartData (processDeposit cfg env s amount isSystem) = pushChart pt (chartData s).
Proof.
  eexists. unfold processDeposit, depositTrace. cbn [tr_final chartData].
  rewrite guillotineCheck_ledger. reflexivity.
Qed.

Lemma refundPhase_chartData s : chartData (refundPhase s) = chartData s.
Proof.
  unfold refundPhase. destruct (Qlt_le_dec 0 (surplusOf s)); [|reflexivity].
  destruct (refundWalk (surplusOf s) (queue s)). reflexivity.
Qed.

(** X1.  The chart never holds more than 100 samples, in any reachable
    state. *)
Theorem chart_bounded s :
  reachable s -> (length (chartData s) <= 100)%nat.
Proof.
  induction 1 as [|cfg env amount s Hr IH|cfg env s Hr IH|s Hr IH].
  - simpl. lia.
  - destruct (processDeposit_chartData cfg env s amount false) as [pt ->].
    apply pushChart_length, IH.
  - unfold handleMidnightReset, protocolSeed.
    destruct (Qlt_le_dec _ 100).
    + cbn [wipeAndRestart chartData set_currentRound set_queue].
      rewrite refundPhase_chartData. exact IH.
    + destruct (processDeposit_chartData cfg env
                  (set_protocolBalance
                     (protocolBalance (wipeAndRestart (refundPhase s)) - 100)
                     (wipeAndRestart (refundPhase s))) 100 true) as [pt ->].
      apply pushChart_length.
      cbn [wipeAndRestart chartData set_currentRound set_queue set_protocolBalance].
      rewrite refundPhase_chartData. exact IH.
  - simpl. lia.
Qed.

Lemma chart_bounded_witness :
  reachable sampleRun /\ (length (chartData sampleRun) <= 100)%nat.
Proof.
  split; [exact sampleRun_reachable|].
  exact (chart_bounded sampleRun sampleRun_reachable).
Defined.

(** ** Who is where after a deposit *)

Lemma filter_split_length (q : list Player) :
  (length (filter stays q) + length (filter (fun p => ~ stays p) q) = length q)%nat.
Proof.
  induction q as [|p q IH]; [reflexivity|].
  rewrite !filter_cons.
  destruct (decide (stays p)) as [Hs|Hs]; destruct (decide (~ stays p)) as [Hn|Hn];
    simpl; try tauto; lia.
Qed.

Lemma sweep_fold_sum cfg env isSystem (q : list Player) (a : Sweep) :
  sw_sum (foldl (sweepStep cfg env isSystem) a q) ==
  sw_sum a + sumTargets (filter (fun p => ~ stays p) q).
Proof.
  revert a. induction q as [|p q IH]; intros a; cbn [foldl].
  - rewrite filter_nil. cbn [sumTargets]. lra.
  - rewrite IH, filter_cons. unfold sweepStep.
    destruct (Qlt_le_dec (collected p) (target p - EXIT_EPSILON)) as [Hs|Hs];
      destruct (decide (~ stays p)) as [Hd|Hd]; unfold stays in *.
    + exfalso. apply Hd. exact Hs.
    + cbn [sw_sum]. reflexivity.
    + cbn [sw_sum sumTargets set_collected target]. lra.
    + exfalso. apply Hd. apply Qle_not_lt. exact Hs.
Qed.

Lemma guillotineCheck_history cfg env s :
  historyCount (guillotineCheck cfg env s) = historyCount s /\
  historySum (guillotineCheck cfg env s) = historySum s.
Proof. rewrite guillotineCheck_ledger. split; reflexivity. Qed.

Lemma afterHead_length cfg env s amount isSystem :
  length (tr_afterHead (depositTrace cfg env s amount isSystem)) = length (queue s).
Proof.
  pose proof (afterHead_ids cfg env s amount isSystem) as E.
  apply (f_equal length) in E. rewrite !length_fmap in E. exact E.
Qed.

(** X2.  A deposit loses nobody: the members it found and the newcomer are
    afterwards either in the queue or counted in [historyCount], whose
    growth is the number of members that left, and [historySum] grows by
    the targets of those members. *)
Theorem deposit_accounts_for_everyone cfg env s amount isSystem :
  let t := depositTrace cfg env s amount isSystem in
  let s' := processDeposit cfg env s amount isSystem in
  historyCount s' = (historyCount s + Z.of_nat (length (sw_gone (tr_sweep t))))%Z /\
  (length (queue s') + length (sw_gone (tr_sweep t)) = length (queue s) + 1)%nat /\
  historySum s' == historySum s + sumTargets (sw_gone (tr_sweep t)) /\
  Forall (fun p => collected p = target p) (sw_gone (tr_sweep t)).
Proof.
  intros t s'.
  assert (Hgone : sw_gone (tr_sweep t) =
            clamp <$> filter (fun p => ~ stays p) (tr_afterHead t ++ [tr_new t])).
  { unfold t, depositTrace, cleanupSweep. cbn [tr_sweep tr_afterHead tr_new queue].
    rewrite sweep_fold_gone. reflexivity. }
  split; [|split; [|split]].
  - rewrite Hgone, length_fmap. unfold s', processDeposit, depositTrace, cleanupSweep.
    cbn [tr_final historyCount queue]. rewrite sweep_fold_count.
    cbn [sw_count]. rewrite (proj1 (guillotineCheck_history cfg env s)).
    reflexivity.
  - rewrite Hgone, length_fmap. unfold s'. rewrite processDeposit_queue. fold t.
    rewrite filter_split_length, length_app. unfold t.
    rewrite afterHead_length. reflexivity.
  - unfold s', processDeposit, depositTrace, cleanupSweep.
    cbn [tr_final historySum queue]. rewrite sweep_fold_sum. cbn [sw_sum].
    rewrite (proj2 (guillotineCheck_history cfg env s)).
    rewrite Hgone. unfold t, depositTrace. cbn [tr_afterHead tr_new].
    apply Qplus_inj_l.
    generalize (filter (fun p => ~ stays p)
      ((distributeHead (headPoolOf cfg (netAmountOf amount isSystem))
         (distributeYield (yieldPoolOf cfg (netAmountOf amount isSystem))
            (queue (guillotineCheck cfg env s)))).1 ++
       [newPlayerOf cfg env (guillotineCheck cfg env s) amount isSystem])).
    intros l. induction l as [|p l IHl]; [reflexivity|].
    cbn [fmap list_fmap sumTargets clamp set_collected target].
    change (list_fmap Player Player clamp l) with (clamp <$> l).
    rewrite <- IHl. reflexivity.
  - rewrite Hgone. apply Forall_fmap, Forall_forall. intros p _. reflexivity.
Qed.

(** X3.  A deposit never reorders the queue: the ids afterwards are the
    ids before followed by the newcomer's id, with the ids of the members
    that left struck out. *)
Theorem deposit_keeps_order cfg env s amount isSystem :
  let t := depositTrace cfg env s amount isSystem in
  id <$> queue (processDeposit cfg env s amount isSystem)
    `sublist_of` (id <$> queue s) ++ [id (tr_new t)].
Proof.
  intros t. rewrite processDeposit_queue. fold t.
  rewrite <- (afterHead_ids cfg env s amount isSystem). fold t.
  change [id (tr_new t)] with (id <$> [tr_new t]). rewrite <- fmap_app.
  apply fmap_sublist, sublist_filter.
Qed.

(** ** Deposits between two Guillotine ticks *)

Lemma creditedOnly_trans p1 p2 p3 :
  creditedOnly p1 p2 -> creditedOnly p2 p3 -> creditedOnly p1 p3.
Proof.
  unfold creditedOnly.
  intros (?&?&?&?&?&?&?&?) (?&?&?&?&?&?&?&?).
  repeat split; try congruence. lra.
Qed.

Lemma Forall2_creditedOnly_trans (q1 q2 q3 : list Player) :
  Forall2 creditedOnly q1 q2 -> Forall2 creditedOnly q2 q3 ->
  Forall2 creditedOnly q1 q3.
Proof.
  intros H12. revert q3. induction H12; intros q3 H23; inversion H23; subst.
  - constructor.
  - constructor; [eapply creditedOnly_trans; eassumption | auto].
Qed.

(** X4.  Unless the Guillotine is enabled and the deposit is a 60th one,
    a deposit changes nothing of the members it found but their collected
    amount, which it can only raise: targets, flags, ids and the order stay
    as they were up to the head walk. *)
Theorem deposit_without_guillotine cfg env s amount isSystem :
  guillotineEnabled cfg = false \/
  Z.rem (tickCount s + 1) GUILLOTINE_INTERVAL <> 0%Z ->
  Forall2 creditedOnly (queue s)
          (tr_afterHead (depositTrace cfg env s amount isSystem)).
Proof.
  intros Hquiet.
  assert (Hq : queue (guillotineCheck cfg env s) = queue s).
  { unfold guillotineCheck. cbn [tickCount set_tickCount].
    destruct Hquiet as [-> | Hne]; [reflexivity|].
    destruct (Z.eqb_spec (Z.rem (tickCount s + 1) GUILLOTINE_INTERVAL) 0)
      as [E|_]; [contradiction|].
    rewrite andb_false_r. reflexivity. }
  unfold depositTrace. cbn [tr_afterHead]. rewrite Hq.
  eapply Forall2_creditedOnly_trans;
    [apply distributeYield_credits | apply distributeHead_credits].
Qed.

Lemma deposit_without_guillotine_witness :
  let s := processDeposit scenario1 (envAt 0) initialState 100 false in
  (guillotineEnabled yieldSettings = false \/
   Z.rem (tickCount s + 1) GUILLOTINE_INTERVAL <> 0%Z) /\
  Forall2 creditedOnly (queue s)
          (tr_afterHead (depositTrace yieldSettings (envAt 1) s 250 false)).
Proof.
  intros s.
  assert (H : guillotineEnabled yieldSettings = false \/
              Z.rem (tickCount s + 1) GUILLOTINE_INTERVAL <> 0%Z)
    by (right; vm_compute; discriminate).
  split; [exact H|].
  exact (deposit_without_guillotine yieldSettings (envAt 1) s 250 false H).
Defined.

(** ** The head walk *)

Lemma distributeHead_dry (remaining : Q) (q : list Player) :
  remaining <= 0 -> distributeHead remaining q = (q, remaining).
Proof.
  intros Hr. destruct q as [|p q]; [reflexivity|]. cbn [distributeHead].
  destruct (Qlt_le_dec 0 remaining) as [?|_]; [exfalso; lra | reflexivity].
Qed.

(** In exact arithmetic a member that the walk leaves short of its target
    has taken all that was left. *)
Lemma distributeHead_short_blocks (remaining : Q) (q : list Player) (i : nat) (p' : Player) :
  (distributeHead remaining q).1 !! i = Some p' ->
  collected p' < target p' ->
  forall j, (i < j)%nat -> (distributeHead remaining q).1 !! j = q !! j.
Proof.
  revert remaining i. induction q as [|p q IH]; intros remaining i Hi Hshort j Hj.
  - reflexivity.
  - cbn [distributeHead] in *.
    destruct (Qlt_le_dec 0 remaining) as [Hr|Hr]; [|reflexivity].
    destruct (Qlt_le_dec 0 (target p - collected p)) as [Hn|Hn].
    + destruct (Qlt_le_dec remaining (target p - collected p)) as [Hlt|Hge].
      * rewrite distributeHead_dry in * by lra. cbn [fst] in *.
        destruct j as [|j]; [lia|]. reflexivity.
      * destruct (distributeHead (remaining - (target p - collected p)) q)
          as [rest' rem] eqn:E. cbn [fst] in *.
        destruct i as [|i].
        -- injection Hi as <-. exfalso.
           cbn [credit set_collected collected target] in Hshort. lra.
        -- destruct j as [|j]; [lia|]. cbn [lookup list_lookup] in *.
           specialize (IH (remaining - (target p - collected p)) i).
           rewrite E in IH. apply IH; [exact Hi | exact Hshort | lia].
    + destruct (distributeHead remaining q) as [rest' rem] eqn:E. cbn [fst] in *.
      destruct i as [|i].
      * injection Hi as <-. exfalso. lra.
      * destruct j as [|j]; [lia|]. cbn [lookup list_lookup] in *.
        specialize (IH remaining i). rewrite E in IH.
        apply IH; [exact Hi | exact Hshort | lia].
Qed.

(** X5.  The head walk serves the queue in order: if a member is still
    queued after the walk by the test of the sweep, that is, has collected
    less than its target less 0.01, no member behind it has received
    anything. *)
Theorem head_walk_priority (remaining : Q) (q : list Player) (i : nat) (p' : Player) :
  (distributeHead remaining q).1 !! i = Some p' ->
  collected p' < target p' - (1 # 100) ->
  forall j, (i < j)%nat -> (distributeHead remaining q).1 !! j = q !! j.
Proof.
  intros Hi Hqueued. apply (distributeHead_short_blocks remaining q i p' Hi). lra.
Qed.

Lemma head_walk_priority_witness :
  let walk := distributeHead 120 crowd in
  (exists p', walk.1 !! 0%nat = Some p' /\ collected p' < target p' - (1 # 100)) /\
  walk.1 !! 1%nat = crowd !! 1%nat /\
  walk.1 !! 5%nat = crowd !! 5%nat.
Proof.
  intros walk.
  assert (H1 : walk.1 !! 0%nat =
               Some (mkPlayer "p0" 100 200 (0 + 120) 1 0 false None))
    by reflexivity.
  assert (H2 : collected (mkPlayer "p0" 100 200 (0 + 120) 1 0 false None) <
               target (mkPlayer "p0" 100 200 (0 + 120) 1 0 false None) - (1 # 100))
    by reflexivity.
  split; [eexists; split; [exact H1 | exact H2]|].
  split.
  - apply (head_walk_priority 120 crowd 0 _ H1 H2). lia.
  - apply (head_walk_priority 120 crowd 0 _ H1 H2). lia.
Defined.

(** In exact arithmetic the walk pays no member beyond its target and
    keeps money back only when every member it walked over is paid up. *)
Lemma distributeHead_bounds (remaining : Q) (q : list Player) :
  0 <= remaining ->
  let walk := distributeHead remaining q in
  Forall2 (fun p p' => collected p' <= Qmax (collected p) (target p)) q walk.1 /\
  0 <= walk.2 /\
  walk.2 <= remaining /\
  (0 < walk.2 -> Forall paidUp walk.1).
Proof.
  revert remaining. induction q as [|p q IH]; intros remaining Hpos walk;
    subst walk; cbn [distributeHead].
  - cbn [fst snd]. repeat split; try lra; constructor.
  - destruct (Qlt_le_dec 0 remaining) as [Hr|Hr].
    + destruct (Qlt_le_dec 0 (target p - collected p)) as [Hn|Hn].
      * destruct (Qlt_le_dec remaining (target p - collected p)) as [Hlt|Hge].
        -- rewrite distributeHead_dry by lra. cbn [fst snd].
           split; [|split; [lra|split; [lra|intros; exfalso; lra]]].
           constructor.
           ++ cbn [credit set_collected collected]. extrema.
           ++ apply Forall2_same_length_lookup_2; [reflexivity|].
              intros k x y Hx Hy. rewrite Hx in Hy. injection Hy as <-. extrema.
        -- assert (Hleft : 0 <= remaining - (target p - collected p)) by lra.
           destruct (IH _ Hleft) as (A & B & C & D).
           destruct (distributeHead (remaining - (target p - collected p)) q)
             as [rest' rem]. cbn [fst snd] in *.
           split; [|split; [exact B|split; [lra|]]].
           ++ constructor; [|exact A].
              cbn [credit set_collected collected]. extrema.
           ++ intros Hrem. constructor; [|apply D, Hrem].
              unfold paidUp. cbn [credit set_collected collected target]. lra.
      * destruct (IH _ Hpos) as (A & B & C & D).
        destruct (distributeHead remaining q) as [rest' rem]. cbn [fst snd] in *.
        split; [|split; [exact B|split; [exact C|]]].
        -- constructor; [extrema | exact A].
        -- intros Hrem. constructor; [|apply D, Hrem]. unfold paidUp. lra.
    + cbn [fst snd]. split; [|split; [lra|split; [lra|intros; exfalso; lra]]].
      apply Forall2_same_length_lookup_2; [reflexivity|].
      intros k x y Hx Hy. rewrite Hx in Hy. injection Hy as <-. extrema.
Qed.

(** X6.  The head walk hands out no more than it was given and never
    ends in debt; and it keeps money back only when no member it walked
    over remains queued: each of them has then collected its target less
    0.01 or more and leaves in the sweep that follows. *)
Theorem head_walk_leftover (remaining : Q) (q : list Player) :
  let walk := distributeHead remaining q in
  (0 <= remaining -> 0 <= walk.2 /\ walk.2 <= remaining) /\
  (0 < walk.2 -> Forall (fun p => target p - (1 # 100) <= collected p) walk.1).
Proof.
  intros walk. subst walk. split.
  - intros Hpos. destruct (distributeHead_bounds remaining q Hpos) as (_ & A & B & _).
    split; [exact A | exact B].
  - intros Hleft.
    destruct (Qlt_le_dec 0 remaining) as [Hpos|Hdry].
    + assert (H0 : 0 <= remaining) by lra.
      destruct (distributeHead_bounds remaining q H0) as (_ & _ & _ & Hpaid).
      eapply Forall_impl; [exact (Hpaid Hleft)|].
      intros p Hp. unfold paidUp in Hp. cbv beta. lra.
    + exfalso. rewrite (distributeHead_dry remaining q Hdry) in Hleft.
      cbn [snd] in Hleft. lra.
Qed.

Lemma head_walk_leftover_witness :
  0 <= 5000 /\
  0 < (distributeHead 5000 crowd).2 /\
  (distributeHead 5000 crowd).2 <= 5000 /\
  Forall (fun p => target p - (1 # 100) <= collected p) (distributeHead 5000 crowd).1.
Proof.
  assert (H : 0 <= 5000) by (vm_compute; discriminate).
  destruct (head_walk_leftover 5000 crowd) as (Hbound & Hall).
  assert (Hrem : 0 < (distributeHead 5000 crowd).2) by reflexivity.
  split; [exact H|]. split; [exact Hrem|].
  split; [exact (proj2 (Hbound H)) | exact (Hall Hrem)].
Defined.

(** ** The yield drip *)

Lemma sumCollected_credit_all (share : Q) (q : list Player) :
  sumCollected (map (credit share) q) ==
  sumCollected q + inject_Z (Z.of_nat (length q)) * share.
Proof.
  induction q as [|p q IH].
  - cbn [map sumCollected length]. change (inject_Z (Z.of_nat 0)) with 0. lra.
  - cbn [map sumCollected credit set_collected collected length].
    rewrite IH, Nat2Z.inj_succ. unfold Z.succ. rewrite inject_Z_plus.
    change (inject_Z 1) with 1. lra.
Qed.

(** X7.  The yield drip hands out the whole yield pool, in equal shares,
    to the members in the queue; with an empty queue, or a pool that is not
    positive, it changes nothing and the pool is paid to nobody.  Under
    COMMUNITY_YIELD the two pools add up to the net amount. *)
Theorem yield_drip_conserves (cfg : Settings) (netAmount yieldPool : Q) (q : list Player) :
  (0 < yieldPool -> q <> [] ->
     sumCollected (distributeYield yieldPool q) == sumCollected q + yieldPool /\
     Forall2 (fun p p' => p' = credit (yieldPool / inject_Z (Z.of_nat (length q))) p)
             q (distributeYield yieldPool q)) /\
  (yieldPool <= 0 \/ q = [] -> distributeYield yieldPool q = q) /\
  yieldPoolOf cfg netAmount + headPoolOf cfg netAmount == netAmount.
Proof.
  split; [|split].
  - intros Hy Hq. unfold distributeYield.
    destruct (Qlt_le_dec 0 yieldPool) as [_|?]; [|exfalso; lra].
    destruct q as [|p0 q0] eqn:E; [contradiction|]. rewrite <- E.
    assert (Hn : 0 < inject_Z (Z.of_nat (length q))).
    { change 0 with (inject_Z 0). rewrite <- Zlt_Qlt. rewrite E. simpl. lia. }
    split.
    + rewrite sumCollected_credit_all. apply Qplus_inj_l.
      field. lra.
    + clear E Hq Hn. generalize (yieldPool / inject_Z (Z.of_nat (length q))).
      intros share. induction q; simpl; constructor; auto.
  - intros [Hy | ->]; unfold distributeYield.
    + destruct (Qlt_le_dec 0 yieldPool) as [?|_]; [exfalso; lra | reflexivity].
    + destruct (Qlt_le_dec 0 yieldPool); reflexivity.
  - unfold yieldPoolOf, headPoolOf. destruct (strategy cfg); lra.
Qed.

Lemma yield_drip_conserves_witness :
  0 < 20 /\ crowd <> [] /\
  sumCollected (distributeYield 20 crowd) == sumCollected crowd + 20.
Proof.
  assert (Hy : 0 < 20) by reflexivity.
  assert (Hq : crowd <> []) by discriminate.
  destruct (yield_drip_conserves scenario1 100 20 crowd) as (Hpay & _ & _).
  destruct (Hpay Hy Hq) as [Hsum _].
  split; [exact Hy|]. split; [exact Hq | exact Hsum].
Defined.

(** ** Dynamic decay *)

Lemma decayFactor_mono (n m : nat) :
  (n <= m)%nat ->
  inject_Z (Z.of_nat (n / 10)) * (5 # 100) <= inject_Z (Z.of_nat (m / 10)) * (5 # 100).
Proof.
  intros Hnm.
  assert (H : inject_Z (Z.of_nat (n / 10)) <= inject_Z (Z.of_nat (m / 10))).
  { rewrite <- Zle_Qle. apply Nat2Z.inj_le. apply Nat.Div0.div_le_mono. exact Hnm. }
  lra.
Qed.

(** X8.  With dynamic decay on, the multiplier of a user deposit is never
    below 1.1, never above the larger of 1.1 and the base multiplier,
    equals that value while fewer than ten members are queued, and does not
    grow when the queue grows; a system deposit always gets the base
    multiplier, as does every deposit with decay off. *)
Theorem decay_bounds (cfg : Settings) :
  (dynamicDecayEnabled cfg = true ->
     forall n m : nat,
       11 # 10 <= effectiveMultiplier cfg false n /\
       effectiveMultiplier cfg false n <= Qmax (11 # 10) (baseMultiplier cfg) /\
       ((n < 10)%nat ->
          effectiveMultiplier cfg false n == Qmax (11 # 10) (baseMultiplier cfg)) /\
       ((n <= m)%nat ->
          effectiveMultiplier cfg false m <= effectiveMultiplier cfg false n)) /\
  (forall n, effectiveMultiplier cfg true n = baseMultiplier cfg) /\
  (dynamicDecayEnabled cfg = false ->
     forall b n, effectiveMultiplier cfg b n = baseMultiplier cfg).
Proof.
  split; [|split].
  - intros Hon n m. unfold effectiveMultiplier. rewrite Hon. cbn [andb negb].
    assert (H0 : 0 <= inject_Z (Z.of_nat (n / 10)) * (5 # 100)).
    { assert (0 <= inject_Z (Z.of_nat (n / 10)))
        by (change 0 with (inject_Z 0); rewrite <- Zle_Qle; lia).
      lra. }
    split; [extrema|]. split; [extrema|]. split.
    + intros Hn. rewrite (Nat.div_small n 10 Hn).
      change (inject_Z (Z.of_nat 0)) with 0. extrema.
    + intros Hnm. pose proof (decayFactor_mono n m Hnm). extrema.
  - intros n. unfold effectiveMultiplier. rewrite andb_false_r. reflexivity.
  - intros Hoff b n. unfold effectiveMultiplier. rewrite Hoff. reflexivity.
Qed.

Lemma decay_bounds_witness :
  dynamicDecayEnabled yieldSettings = true /\
  11 # 10 <= effectiveMultiplier yieldSettings false 25 /\
  effectiveMultiplier yieldSettings false 250 <= effectiveMultiplier yieldSettings false 25 /\
  effectiveMultiplier yieldSettings false 9 == Qmax (11 # 10) (baseMultiplier yieldSettings) /\
  effectiveMultiplier scenario1 false 250 = baseMultiplier scenario1.
Proof.
  destruct (decay_bounds yieldSettings) as (Hon & _ & _).
  destruct (decay_bounds scenario1) as (_ & _ & Hoff).
  destruct (Hon eq_refl 25%nat 250%nat) as (Hlow & _ & _ & Hmono).
  destruct (Hon eq_refl 9%nat 9%nat) as (_ & _ & Hsmall & _).
  split; [reflexivity|]. split; [exact Hlow|].
  split; [apply Hmono; lia|]. split; [apply Hsmall; lia|].
  exact (Hoff eq_refl false 250%nat).
Defined.

(** ** The reserve across a deposit *)

Lemma taxesFrom_closed_gate cfg env isSystem k (leaving : list Player) :
  taxGate cfg isSystem = false -> taxesFrom cfg env isSystem k leaving == 0.
Proof.
  intros Hgate. revert k. induction leaving as [|p l IH]; intros k;
    cbn [taxesFrom]; [lra|].
  rewrite Hgate. cbn [andb]. rewrite IH. lra.
Qed.

Lemma taxesFrom_nonneg cfg env isSystem k (leaving : list Player) :
  0 <= taxesFrom cfg env isSystem k leaving.
Proof.
  revert k. induction leaving as [|p l IH]; intros k; cbn [taxesFrom]; [lra|].
  specialize (IH (if taxGate cfg isSystem then S k else k)).
  destruct (taxGate cfg isSystem && _); extrema.
Qed.

(** X9.  What a deposit does to the reserve: a user deposit adds the fee,
    which is the larger of 1 and 1% of the amount, and the winners tax of
    the members that leave; with the tax off exactly the fee is added; a
    system deposit leaves the reserve as it is. *)
Theorem deposit_reserve cfg env s amount :
  let user := processDeposit cfg env s amount false in
  let system := processDeposit cfg env s amount true in
  protocolBalance s + 1 <= protocolBalance user /\
  protocolBalance s + amount * (1 # 100) <= protocolBalance user /\
  (winnersTaxEnabled cfg = false ->
     protocolBalance user == protocolBalance s + Qmax 1 (amount * (1 # 100))) /\
  protocolBalance system == protocolBalance s.
Proof.
  intros user system.
  pose proof (processDeposit_reserve cfg env s amount false) as Hu.
  pose proof (processDeposit_reserve cfg env s amount true) as Hs.
  cbv zeta in Hu, Hs. fold user in Hu. fold system in Hs.
  unfold feeOf, actualFee, FEE_PERCENT in Hu, Hs.
  pose proof (taxesFrom_nonneg cfg env false 1
    (filter (fun p => ~ stays p)
       (tr_afterHead (depositTrace cfg env s amount false) ++
        [tr_new (depositTrace cfg env s amount false)]))) as Hn.
  split; [rewrite Hu; extrema|]. split; [rewrite Hu; extrema|]. split.
  - intros Hoff. rewrite Hu, taxesFrom_closed_gate; [lra|].
    unfold taxGate. rewrite Hoff. reflexivity.
  - rewrite Hs, taxesFrom_closed_gate; [lra|].
    unfold taxGate. apply andb_false_r.
Qed.

Lemma deposit_reserve_witness :
  winnersTaxEnabled scenario1 = false /\
  protocolBalance (processDeposit scenario1 (envAt 0) initialState 250 false)
    == protocolBalance initialState + Qmax 1 (250 * (1 # 100)).
Proof.
  destruct (deposit_reserve scenario1 (envAt 0) initialState 250)
    as (_ & _ & Hfee & _).
  split; [reflexivity | exact (Hfee eq_refl)].
Defined.

(** ** More on the Guillotine *)

Lemma victim_not_slashed env (q : list Player) (r : Ref) :
  r ∈ victimsOf env q -> q !! r.1 = Some r.2 /\ slashed r.2 = false.
Proof.
  intros Hr. apply candidatesOf_notSlashed.
  eapply elem_of_submseteq; [exact Hr | apply victimsOf_spec].
Qed.

(** X10.  A member that carries the slashed flag is never slashed again:
    the Guillotine leaves it exactly as it is. *)
Theorem guillotine_spares_slashed env s (i : nat) (p : Player) :
  queue s !! i = Some p -> slashed p = true ->
  queue (triggerGuillotine env s) !! i = Some p.
Proof.
  intros Hp Hflag.
  destruct (triggerGuillotine_queue env s) as [-> | ->]; [exact Hp|].
  rewrite slashAll_lookup_other; [exact Hp|].
  intros Hin. apply list_elem_of_fmap in Hin as (r & -> & Hr).
  destruct (victim_not_slashed env (queue s) r Hr) as [Hq Hns].
  rewrite Hp in Hq. injection Hq as ->. congruence.
Qed.

Lemma guillotine_spares_slashed_witness :
  crowd !! 2%nat = Some (mkPlayer "p2" 50 100 0 1 0 true None) /\
  queue (triggerGuillotine (envAt 0) crowdState) !! 2%nat =
    Some (mkPlayer "p2" 50 100 0 1 0 true None).
Proof.
  assert (H : queue crowdState !! 2%nat = Some (mkPlayer "p2" 50 100 0 1 0 true None))
    by reflexivity.
  split; [exact H|].
  exact (guillotine_spares_slashed (envAt 0) crowdState 2 _ H eq_refl).
Defined.

(** X11.  In a queue of at least five members of which at most ten are
    not yet slashed, one Guillotine slashes all of them: afterwards every
    member carries the flag, whatever the random numbers. *)
Theorem guillotine_slashes_all env s :
  (5 <= length (queue s))%nat ->
  (length (filter notSlashed (refs (queue s))) <= 10)%nat ->
  Forall (fun p => slashed p = true) (queue (triggerGuillotine env s)).
Proof.
  intros Hlen Hfew.
  destruct (victimsOf_spec env (queue s)) as (Hsub & Hnd & Hcount).
  assert (Hcands : candidatesOf (queue s) ≡ₚ filter notSlashed (refs (queue s))).
  { unfold candidatesOf. rewrite take_ge; [apply sort_perm|].
    rewrite (Permutation_length (sort_perm _ _)). lia. }
  assert (Hvs : victimsOf env (queue s) ≡ₚ candidatesOf (queue s)).
  { apply submseteq_length_Permutation; [exact Hsub|].
    rewrite Hcount, (Permutation_length Hcands). lia. }
  apply Forall_lookup. intros i p' Hp'.
  rewrite (triggerGuillotine_crowd env s Hlen) in Hp'.
  assert (Hi : is_Some (queue s !! i)).
  { apply lookup_lt_is_Some. rewrite <- (slashAll_length (victimsOf env (queue s))).
    apply lookup_lt_is_Some. eexists. exact Hp'. }
  destruct Hi as [p Hp].
  destruct (slashed p) eqn:Hflag.
  - pose proof (guillotine_spares_slashed env s i p Hp Hflag) as Hkeep.
    rewrite (triggerGuillotine_crowd env s Hlen) in Hkeep.
    rewrite Hkeep in Hp'. injection Hp' as <-. exact Hflag.
  - assert (Hin : (i, p) ∈ victimsOf env (queue s)).
    { rewrite Hvs, Hcands. apply list_elem_of_filter. split; [exact Hflag|].
      apply elem_of_refs. exact Hp. }
    rewrite slashAll_lookup_victim in Hp'; [|exact Hnd|].
    + rewrite Hp in Hp'. injection Hp' as <-. reflexivity.
    + apply list_elem_of_fmap. exists (i, p). split; [reflexivity | exact Hin].
Qed.

Lemma guillotine_slashes_all_witness :
  (5 <= length (queue crowdState))%nat /\
  (length (filter notSlashed (refs (queue crowdState))) <= 10)%nat /\
  Forall (fun p => slashed p = true) (queue (triggerGuillotine (envAt 0) crowdState)).
Proof.
  assert (H5 : (5 <= length (queue crowdState))%nat) by (simpl; lia).
  assert (H10 : (length (filter notSlashed (refs (queue crowdState))) <= 10)%nat)
    by (vm_compute; lia).
  split; [exact H5|]. split; [exact H10|].
  exact (guillotine_slashes_all (envAt 0) crowdState H5 H10).
Defined.

(** X12.  In a queue without negative targets the Guillotine raises no
    target and makes none negative. *)
Theorem guillotine_lowers_targets env s :
  Forall (fun p => 0 <= target p) (queue s) ->
  Forall2 (fun p p' => target p' <= target p /\ 0 <= target p')
          (queue s) (queue (triggerGuillotine env s)).
Proof.
  intros Hpos. rewrite Forall_lookup in Hpos.
  apply Forall2_same_length_lookup_2.
  - eapply Forall2_length, triggerGuillotine_frame.
  - intros i p p' Hp Hp'. specialize (Hpos i p Hp). cbv beta in Hpos.
    destruct (triggerGuillotine_queue env s) as [E | E]; rewrite E in Hp'.
    + rewrite Hp in Hp'. injection Hp' as <-. split; lra.
    + destruct (victimsOf_spec env (queue s)) as (_ & Hnd & _).
      destruct (decide (i ∈ (victimsOf env (queue s)).*1)) as [Hin|Hout].
      * rewrite slashAll_lookup_victim in Hp' by assumption.
        rewrite Hp in Hp'. injection Hp' as <-.
        cbn [slash set_slashed set_target target]. unfold HAIRCUT. split; lra.
      * rewrite slashAll_lookup_other in Hp' by assumption.
        rewrite Hp in Hp'. injection Hp' as <-. split; lra.
Qed.

Lemma guillotine_lowers_targets_witness :
  Forall (fun p => 0 <= target p) (queue crowdState) /\
  Forall2 (fun p p' => target p' <= target p /\ 0 <= target p')
          (queue crowdState) (queue (triggerGuillotine (envAt 0) crowdState)).
Proof.
  assert (H : Forall (fun p => 0 <= target p) (queue crowdState)).
  { repeat constructor; vm_compute; discriminate. }
  split; [exact H|].
  exact (guillotine_lowers_targets (envAt 0) crowdState H).
Defined.

(** ** More on the settlement *)

Lemma refundPhase_ledger s :
  historyCount (refundPhase s) = historyCount s /\
  historySum (refundPhase s) = historySum s /\
  totalDeposited (refundPhase s) = totalDeposited s /\
  currentRound (refundPhase s) = currentRound s /\
  tickCount (refundPhase s) = tickCount s.
Proof.
  unfold refundPhase. destruct (Qlt_le_dec 0 (surplusOf s)); [|repeat split].
  destruct (refundWalk (surplusOf s) (queue s)). repeat split.
Qed.

Lemma guillotineCheck_empty cfg env s :
  queue s = [] -> guillotineCheck cfg env s = set_tickCount (tickCount s + 1)%Z s.
Proof.
  intros Hq. unfold guillotineCheck.
  destruct (guillotineEnabled cfg && _); [|reflexivity].
  unfold triggerGuillotine. cbn [queue set_tickCount]. rewrite Hq. reflexivity.
Qed.

(** X13.  How a settlement ends.  The round advances by one and the exit
    counters are kept.  With less than 100 in the reserve after the refund
    the queue is left empty and nothing else moves.  With at least 100 (and
    a base multiplier above 0.0001, so that the seed does not leave at
    once) the queue holds the protocol seed alone, with deposit 100, target
    100 times the base multiplier and nothing collected; the reserve is 100
    lower, no fee or tax is taken, and the seed counts as one more
    processed deposit of 100. *)
Theorem settlement_outcome cfg env s :
  let r := refundPhase s in
  let s' := handleMidnightReset cfg env s in
  (protocolBalance r < 100 ->
     queue s' = [] /\ protocolBalance s' = protocolBalance r /\
     currentRound s' = (currentRound s + 1)%Z /\
     tickCount s' = tickCount s /\ totalDeposited s' = totalDeposited s /\
     historyCount s' = historyCount s) /\
  (100 <= protocolBalance r -> 1 # 10000 < baseMultiplier cfg ->
     queue s' =
       [mkPlayer PROTOCOL_SEED 100 (100 * baseMultiplier cfg) 0
                 (currentRound s + 1)%Z (Date_now env 0) false None] /\
     protocolBalance s' = protocolBalance r - 100 /\
     currentRound s' = (currentRound s + 1)%Z /\
     tickCount s' = (tickCount s + 1)%Z /\
     totalDeposited s' = totalDeposited s + 100 /\
     historyCount s' = historyCount s).
Proof.
  intros r s'. destruct (refundPhase_ledger s) as (Hc & Hsum & Hd & Hround & Ht).
  fold r in Hc, Hsum, Hd, Hround, Ht.
  unfold s', handleMidnightReset, protocolSeed. fold r. split.
  - intros Hpoor.
    destruct (Qlt_le_dec (protocolBalance (wipeAndRestart r)) 100) as [_|Hge].
    + cbn. rewrite Hc, Hd, Hround, Ht. repeat split.
    + exfalso. cbn in Hge. lra.
  - intros Hrich Hmult.
    destruct (Qlt_le_dec (protocolBalance (wipeAndRestart r)) 100) as [Hlt|_].
    { exfalso. cbn in Hlt. lra. }
    unfold processDeposit, depositTrace.
    rewrite guillotineCheck_empty by reflexivity.
    assert (Hwalk : forall y h : Q,
              distributeHead h (distributeYield y []) = ([], h)).
    { intros y h. unfold distributeYield.
      destruct (Qlt_le_dec 0 y); reflexivity. }
    cbn [queue set_tickCount set_protocolBalance wipeAndRestart
         set_currentRound set_queue].
    rewrite Hwalk.
    unfold cleanupSweep, newPlayerOf, effectiveMultiplier.
    rewrite andb_false_r.
    cbn [tr_final queue set_tickCount set_protocolBalance wipeAndRestart
         set_currentRound set_queue historyCount historySum totalDeposited
         protocolBalance currentRound chartData tickCount
         fst snd app length foldl].
    unfold sweepStep. cbn [collected target].
    destruct (Qlt_le_dec 0 (100 * baseMultiplier cfg - EXIT_EPSILON)) as [_|Hout];
      [|exfalso; unfold EXIT_EPSILON in Hout; lra].
    cbn [sw_next sw_balance sw_count app].
    rewrite Hc, Hd, Hround, Ht. repeat split.
Qed.

Lemma settlement_outcome_witness :
  100 <= protocolBalance (refundPhase scenario4) /\
  1 # 10000 < baseMultiplier scenario1 /\
  id <$> queue (handleMidnightReset scenario1 (envAt 0) scenario4) = [PROTOCOL_SEED] /\
  protocolBalance (handleMidnightReset scenario1 (envAt 0) scenario4) =
    protocolBalance (refundPhase scenario4) - 100 /\
  protocolBalance (refundPhase (set_protocolBalance 40 initialState)) < 100 /\
  queue (handleMidnightReset scenario1 (envAt 0) (set_protocolBalance 40 initialState)) = [].
Proof.
  assert (Hrich : 100 <= protocolBalance (refundPhase scenario4))
    by (vm_compute; discriminate).
  assert (Hmult : 1 # 10000 < baseMultiplier scenario1) by reflexivity.
  assert (Hpoor : protocolBalance (refundPhase (set_protocolBalance 40 initialState)) < 100)
    by reflexivity.
  destruct (settlement_outcome scenario1 (envAt 0) scenario4) as [_ Hseed].
  destruct (settlement_outcome scenario1 (envAt 0) (set_protocolBalance 40 initialState))
    as [Hnone _].
  destruct (Hseed Hrich Hmult) as (Hq & Hbal & _).
  destruct (Hnone Hpoor) as (Hempty & _).
  split; [exact Hrich|]. split; [exact Hmult|].
  split; [rewrite Hq; reflexivity|]. split; [exact Hbal|].
  split; [exact Hpoor | exact Hempty].
Defined.

Lemma refundWalk_conserves (surplus : Q) (q : list Player) :
  0 <= surplus ->
  let walk := refundWalk surplus q in
  Forall2 (fun p p' => creditedOnly p p' /\
                       collected p' <= Qmax (collected p) (deposit p)) q walk.1 /\
  0 <= walk.2 /\ walk.2 <= surplus /\
  sumCollected walk.1 + walk.2 == sumCollected q + surplus.
Proof.
  revert surplus. induction q as [|p q IH]; intros surplus Hpos walk; subst walk;
    cbn [refundWalk].
  - cbn [fst snd sumCollected]. repeat split; try lra; constructor.
  - assert (Hsame : Forall2 (fun p p' => creditedOnly p p' /\
                       collected p' <= Qmax (collected p) (deposit p)) q q).
    { apply Forall2_same_length_lookup_2; [reflexivity|].
      intros k x y Hx Hy. rewrite Hx in Hy. injection Hy as <-.
      split; [apply creditedOnly_refl | extrema]. }
    destruct (Qlt_le_dec 0 surplus) as [Hs|Hs].
    + set (need := Qmax 0 (deposit p - collected p)).
      assert (Hneed : 0 <= need) by (unfold need; extrema).
      destruct (Qlt_le_dec 0 need) as [Hn|Hn].
      * assert (Hleft : 0 <= surplus - Qmin surplus need) by extrema.
        destruct (IH _ Hleft) as (A & B & C & D).
        destruct (refundWalk (surplus - Qmin surplus need) q) as [rest' rem].
        cbn [fst snd sumCollected credit set_collected collected] in *.
        split; [|split; [exact B|split]].
        -- constructor; [|exact A]. split.
           ++ apply creditedOnly_credit. extrema.
           ++ cbn [credit set_collected collected]. unfold need in *. extrema.
        -- extrema.
        -- lra.
      * destruct (IH _ Hpos) as (A & B & C & D).
        destruct (refundWalk surplus q) as [rest' rem].
        cbn [fst snd sumCollected] in *.
        split; [|split; [exact B|split; [exact C|lra]]].
        constructor; [|exact A]. split; [apply creditedOnly_refl | extrema].
    + cbn [fst snd sumCollected]. split; [|split; [lra|split; lra]].
      constructor; [|exact Hsame]. split; [apply creditedOnly_refl | extrema].
Qed.

(** X14.  The refund phase moves money from the reserve to the queue and
    nowhere else: what the members gain is what the reserve loses.  It
    only adds to collected amounts, never refunds a member beyond its
    deposit, never raises the reserve and never takes a reserve that was
    at or above the floor of 1000 below it. *)
Theorem refund_conserves s :
  let r := refundPhase s in
  sumCollected (queue r) + protocolBalance r ==
    sumCollected (queue s) + protocolBalance s /\
  Forall2 (fun p p' => creditedOnly p p' /\
                       collected p' <= Qmax (collected p) (deposit p))
          (queue s) (queue r) /\
  protocolBalance r <= protocolBalance s /\
  (INITIAL_RESERVE <= protocolBalance s -> INITIAL_RESERVE <= protocolBalance r).
Proof.
  intros r. subst r. unfold refundPhase.
  assert (Hsame : Forall2 (fun p p' => creditedOnly p p' /\
                     collected p' <= Qmax (collected p) (deposit p))
                          (queue s) (queue s)).
  { apply Forall2_same_length_lookup_2; [reflexivity|].
    intros k x y Hx Hy. rewrite Hx in Hy. injection Hy as <-.
    split; [apply creditedOnly_refl | extrema]. }
  destruct (Qlt_le_dec 0 (surplusOf s)) as [Hpos|Hle].
  - assert (H0 : 0 <= surplusOf s) by lra.
    destruct (refundWalk_conserves (surplusOf s) (queue s) H0) as (A & B & C & D).
    destruct (refundWalk (surplusOf s) (queue s)) as [q' rem].
    cbn [fst snd queue protocolBalance set_protocolBalance set_queue] in *.
    unfold surplusOf, INITIAL_RESERVE in *.
    split; [|split; [exact A|split]]; extrema.
  - split; [lra|]. split; [exact Hsame|]. split; [lra | tauto].
Qed.

Lemma refund_conserves_witness :
  INITIAL_RESERVE <= protocolBalance scenario4 /\
  INITIAL_RESERVE <= protocolBalance (refundPhase scenario4) /\
  sumCollected (queue (refundPhase scenario4)) + protocolBalance (refundPhase scenario4)
    == sumCollected (queue scenario4) + protocolBalance scenario4.
Proof.
  assert (H : INITIAL_RESERVE <= protocolBalance scenario4)
    by (vm_compute; discriminate).
  destruct (refund_conserves scenario4) as (Hsum & _ & _ & Hfloor).
  split; [exact H|]. split; [exact (Hfloor H) | exact Hsum].
Defined.

(** ** Counters and the snapshot *)

Lemma processDeposit_historyCount cfg env s amount isSystem :
  let t := depositTrace cfg env s amount isSystem in
  historyCount (processDeposit cfg env s amount isSystem) =
  (historyCount s +
   Z.of_nat (length (filter (fun p => ~ stays p) (tr_afterHead t ++ [tr_new t]))))%Z.
Proof.
  unfold processDeposit, depositTrace, cleanupSweep.
  cbn [tr_final tr_afterHead tr_new historyCount queue].
  rewrite sweep_fold_count. cbn [sw_count].
  rewrite (proj1 (guillotineCheck_history cfg env s)). reflexivity.
Qed.

Lemma processDeposit_currentRound cfg env s amount isSystem :
  currentRound (processDeposit cfg env s amount isSystem) = currentRound s.
Proof.
  unfold processDeposit, depositTrace. cbn [tr_final currentRound].
  rewrite guillotineCheck_ledger. reflexivity.
Qed.

Lemma processDeposit_counts cfg env s amount isSystem :
  let s' := processDeposit cfg env s amount isSystem in
  (historyCount s' + Z.of_nat (length (queue s')) =
   historyCount s + Z.of_nat (length (queue s)) + 1)%Z /\
  (historyCount s <= historyCount s')%Z /\
  currentRound s' = currentRound s.
Proof.
  intros s'. subst s'.
  pose proof (filter_split_length
    (tr_afterHead (depositTrace cfg env s amount isSystem) ++
     [tr_new (depositTrace cfg env s amount isSystem)])) as Hsplit.
  rewrite length_app, afterHead_length in Hsplit. cbn [length] in Hsplit.
  rewrite processDeposit_queue, processDeposit_historyCount,
    processDeposit_currentRound.
  cbv zeta. split; [lia|]. split; [lia | reflexivity].
Qed.

Lemma reachable_counts s :
  reachable s ->
  (0 <= historyCount s)%Z /\
  (historyCount s + Z.of_nat (length (queue s)) <= tickCount s)%Z /\
  (1 <= currentRound s)%Z.
Proof.
  induction 1 as [|cfg env amount s Hr IH|cfg env s Hr IH|s Hr IH].
  - simpl. lia.
  - destruct (processDeposit_counts cfg env s amount false) as (A & B & C).
    rewrite processDeposit_tickCount, C. lia.
  - destruct (refundPhase_ledger s) as (Hc & _ & _ & Hround & Ht).
    unfold handleMidnightReset, protocolSeed.
    destruct (Qlt_le_dec _ 100).
    + cbn. rewrite Hc, Hround, Ht. lia.
    + destruct (processDeposit_counts cfg env
                  (set_protocolBalance
                     (protocolBalance (wipeAndRestart (refundPhase s)) - 100)
                     (wipeAndRestart (refundPhase s))) 100 true) as (A & B & C).
      rewrite processDeposit_tickCount, C.
      cbn [wipeAndRestart set_protocolBalance set_currentRound set_queue
           historyCount queue length currentRound tickCount] in *.
      rewrite Hc, Hround, Ht in *. lia.
  - simpl. lia.
Qed.

(** X15.  What the snapshot of a reachable state shows: the users in
    total are the users paid out plus the users trapped, none of the
    counts is negative, the users in total never exceed the number of
    deposits processed since the last full reset, the round is at least 1,
    the head card is the first of the at most eight queue cards, and it is
    missing exactly when nobody is trapped. *)
Theorem snapshot_of_reachable cfg s :
  reachable s ->
  let snap := syncUI cfg s in
  let st := UiSnapshot.stats snap in
  SimulationStats.totalUsers st =
    (SimulationStats.usersPaidExit st + Z.of_nat (SimulationStats.usersTrapped st))%Z /\
  (0 <= SimulationStats.usersPaidExit st)%Z /\
  (SimulationStats.totalUsers st <= tickCount s)%Z /\
  (1 <= SimulationStats.currentRound st)%Z /\
  SimulationStats.currentQueueLength st = SimulationStats.usersTrapped st /\
  UiSnapshot.queueSlice snap `prefix_of` queue s /\
  length (UiSnapshot.queueSlice snap) = Nat.min 8 (SimulationStats.usersTrapped st) /\
  UiSnapshot.headPlayer snap = head (UiSnapshot.queueSlice snap) /\
  (UiSnapshot.headPlayer snap = None <-> SimulationStats.usersTrapped st = 0%nat).
Proof.
  intros Hr snap st. destruct (reachable_counts s Hr) as (H0 & Hle & Hround).
  subst st snap. unfold syncUI.
  cbn [UiSnapshot.stats UiSnapshot.queueSlice UiSnapshot.headPlayer
       SimulationStats.totalUsers SimulationStats.usersPaidExit
       SimulationStats.usersTrapped SimulationStats.currentRound
       SimulationStats.currentQueueLength].
  split; [reflexivity|]. split; [exact H0|]. split; [exact Hle|].
  split; [exact Hround|]. split; [reflexivity|].
  split; [apply prefix_take|]. split; [apply length_take|].
  split; [destruct (queue s); reflexivity|].
  destruct (queue s); cbn; split; intros; try reflexivity; discriminate.
Qed.

Lemma snapshot_of_reachable_witness :
  reachable sampleRun /\
  (SimulationStats.totalUsers (UiSnapshot.stats (syncUI scenario1 sampleRun))
   <= tickCount sampleRun)%Z.
Proof.
  split; [exact sampleRun_reachable|].
  destruct (snapshot_of_reachable scenario1 sampleRun sampleRun_reachable)
    as (_ & _ & Hle & _).
  exact Hle.
Defined.

(** ** The deposit timer and the newcomer *)

(** X16.  The amount the running simulation deposits is a whole number
    from 10 to 999; its fee lies between 1 and 9.99 and what is left for
    the queue is at least 9. *)
Theorem autoAmount_range (r : unit01) :
  (exists k : Z, autoAmount r = inject_Z k /\ (10 <= k <= 999)%Z) /\
  10 <= autoAmount r /\ autoAmount r <= 999 /\
  1 <= actualFee (autoAmount r) /\ actualFee (autoAmount r) <= 999 # 100 /\
  9 <= netAmountOf (autoAmount r) false.
Proof.
  pose proof (u01_range r) as Hr.
  apply andb_true_iff in Hr as [H0 H1].
  apply Qle_bool_iff in H0. apply negb_true_iff in H1.
  assert (Hlt : u01 r < 1).
  { apply Qnot_le_lt. intros Hc. apply Qle_bool_iff in Hc. congruence. }
  assert (Hlo : (0 <= Qfloor (u01 r * 990))%Z).
  { change 0%Z with (Qfloor 0). apply Qfloor_resp_le. lra. }
  assert (Hhi : (Qfloor (u01 r * 990) < 990)%Z).
  { rewrite Zlt_Qlt. pose proof (Qfloor_le (u01 r * 990)).
    change (inject_Z 990) with 990. lra. }
  assert (Hk : (10 <= Qfloor (u01 r * 990) + 10 <= 999)%Z) by lia.
  assert (Ha : 10 <= autoAmount r /\ autoAmount r <= 999).
  { unfold autoAmount. change 10 with (inject_Z 10). change 999 with (inject_Z 999).
    rewrite <- !Zle_Qle. lia. }
  destruct Ha as [Ha1 Ha2].
  split; [eexists; split; [reflexivity | exact Hk]|].
  split; [exact Ha1|]. split; [exact Ha2|].
  unfold netAmountOf, actualFee, FEE_PERCENT.
  generalize dependent (autoAmount r). intros a Ha1 Ha2.
  split; [extrema|]. split; extrema.
Qed.

(** X17.  What becomes of the newcomer: if its target is above 0.01 it
    is the last member of the queue after the deposit, with nothing
    collected; otherwise it leaves within the same call, the last of the
    members that left.  A deposit of at least 1 under a base multiplier of
    at least 1.1 always joins the queue. *)
Theorem newcomer_fate cfg env s amount isSystem :
  let t := depositTrace cfg env s amount isSystem in
  let s' := processDeposit cfg env s amount isSystem in
  (1 # 100 < target (tr_new t) ->
     last (queue s') = Some (tr_new t) /\ collected (tr_new t) = 0) /\
  (target (tr_new t) <= 1 # 100 ->
     queue s' = filter stays (tr_afterHead t) /\
     last (sw_gone (tr_sweep t)) = Some (set_collected (target (tr_new t)) (tr_new t))) /\
  (1 <= amount -> 11 # 10 <= baseMultiplier cfg -> last (queue s') = Some (tr_new t)).
Proof.
  intros t s'.
  assert (Hq : queue s' = filter stays (tr_afterHead t) ++ filter stays [tr_new t]).
  { unfold s'. rewrite processDeposit_queue. fold t. apply filter_app. }
  assert (Hgone : sw_gone (tr_sweep t) =
            (clamp <$> filter (fun p => ~ stays p) (tr_afterHead t)) ++
            (clamp <$> filter (fun p => ~ stays p) [tr_new t])).
  { unfold t, depositTrace, cleanupSweep. cbn [tr_sweep tr_afterHead tr_new queue].
    rewrite sweep_fold_gone, filter_app, fmap_app. reflexivity. }
  assert (Hjoin : 1 # 100 < target (tr_new t) -> last (queue s') = Some (tr_new t)).
  { intros Hbig. rewrite Hq, filter_cons, filter_nil.
    destruct (decide (stays (tr_new t))) as [_|Hn]; [apply last_snoc|].
    exfalso. apply Hn. unfold stays, EXIT_EPSILON.
    change (collected (tr_new t)) with 0. lra. }
  split; [|split].
  - intros Hbig. split; [exact (Hjoin Hbig) | reflexivity].
  - intros Hsmall.
    assert (Hn : ~ stays (tr_new t)).
    { unfold stays, EXIT_EPSILON. change (collected (tr_new t)) with 0. lra. }
    split.
    + rewrite Hq, filter_cons, filter_nil.
      destruct (decide (stays (tr_new t))) as [?|_]; [contradiction|].
      apply app_nil_r.
    + rewrite Hgone, filter_cons, filter_nil.
      destruct (decide (~ stays (tr_new t))) as [_|?]; [|contradiction].
      cbn [fmap list_fmap]. apply last_snoc.
  - intros Hamount Hbase. apply Hjoin.
    change (target (tr_new t)) with
      (amount * effectiveMultiplier cfg isSystem (length (queue (tr_start t)))).
    assert (Heff : 11 # 10 <= effectiveMultiplier cfg isSystem
                                 (length (queue (tr_start t)))).
    { unfold effectiveMultiplier.
      destruct (dynamicDecayEnabled cfg && negb isSystem); [extrema | exact Hbase]. }
    nra.
Qed.

Lemma newcomer_fate_witness :
  let t := depositTrace scenario1 (envAt 0) initialState 100 false in
  1 <= 100 /\ 11 # 10 <= baseMultiplier scenario1 /\
  last (queue (processDeposit scenario1 (envAt 0) initialState 100 false))
    = Some (tr_new t).
Proof.
  intros t.
  assert (H1 : 1 <= 100) by (vm_compute; discriminate).
  assert (H2 : 11 # 10 <= baseMultiplier scenario1) by (vm_compute; discriminate).
  destruct (newcomer_fate scenario1 (envAt 0) initialState 100 false) as (_ & _ & H).
  split; [exact H1|]. split; [exact H2 | exact (H H1 H2)].
Defined.

(** ** The queue cards *)

(** X18.  In a reachable state every card of the queue has a positive
    target, so its progress is a quotient by a non-zero number, and its
    progress is at least 0 and below 100: the bar width
    [Math.min(100, progress)] is the progress itself, and no queued member
    is ever shown as complete. *)
Theorem cards_of_reachable (maxDisplay : nat) s :
  reachable s ->
  Forall (fun p => 0 < target p /\ 0 <= progress p /\ progress p < 100 /\
                   barWidth p == progress p)
         (displayQueue maxDisplay (queue s)).
Proof.
  intros Hr. pose proof (reachable_settled s Hr) as Hs.
  unfold settled in Hs. rewrite Forall_forall in Hs.
  apply Forall_forall. intros p Hp.
  assert (Hin : p ∈ queue s).
  { unfold displayQueue in Hp. eapply elem_of_sublist; [exact Hp | apply sublist_take]. }
  destruct (Hs p Hin) as [H0 Hstay]. unfold stays, EXIT_EPSILON in Hstay.
  assert (Ht : 0 < target p) by lra.
  assert (Hq0 : 0 <= collected p / target p).
  { apply Qle_shift_div_l; [exact Ht | lra]. }
  assert (Hq1 : collected p / target p < 1).
  { apply Qlt_shift_div_r; [exact Ht | lra]. }
  unfold barWidth, progress.
  split; [exact Ht|]. split; [lra|]. split; [lra|].
  apply Q.min_r. lra.
Qed.

Lemma cards_of_reachable_witness :
  reachable sampleRun /\
  Forall (fun p => 0 < target p /\ 0 <= progress p /\ progress p < 100 /\
                   barWidth p == progress p)
         (displayQueue 7 (queue sampleRun)).
Proof.
  split; [exact sampleRun_reachable|].
  exact (cards_of_reachable 7 sampleRun sampleRun_reachable).
Defined.

(** ** What a deposit pays out *)

Lemma sumCollected_sameButTarget (q q' : list Player) :
  Forall2 sameButTarget q q' -> sumCollected q' = sumCollected q.
Proof.
  induction 1 as [|p p' q q' Hp _ IH]; [reflexivity|].
  cbn [sumCollected]. destruct Hp as (_ & _ & -> & _). rewrite IH. reflexivity.
Qed.

Lemma distributeYield_sum (yieldPool : Q) (q : list Player) :
  0 <= sumCollected (distributeYield yieldPool q) - sumCollected q /\
  sumCollected (distributeYield yieldPool q) - sumCollected q <= Qmax 0 yieldPool.
Proof.
  unfold distributeYield.
  destruct (Qlt_le_dec 0 yieldPool) as [Hy|Hy]; [|extrema].
  destruct q as [|p0 q0] eqn:E; [cbn [sumCollected]; extrema|]. rewrite <- E.
  assert (Hn : 0 < inject_Z (Z.of_nat (length q))).
  { change 0 with (inject_Z 0). rewrite <- Zlt_Qlt. rewrite E. simpl. lia. }
  assert (Hall : inject_Z (Z.of_nat (length q)) *
                 (yieldPool / inject_Z (Z.of_nat (length q))) == yieldPool)
    by (field; lra).
  rewrite sumCollected_credit_all, Hall. extrema.
Qed.

(** X19.  Whatever the strategy and the toggles, the members found in the
    queue are credited, in total, no less than nothing and no more than
    the net amount of the deposit (nothing when the net amount is
    negative): a deposit never pays out more than it brought in after the
    fee. *)
Theorem deposit_pays_at_most_net cfg env s amount isSystem :
  let t := depositTrace cfg env s amount isSystem in
  0 <= sumCollected (tr_afterHead t) - sumCollected (queue s) /\
  sumCollected (tr_afterHead t) - sumCollected (queue s) <= Qmax 0 (tr_net t).
Proof.
  intros t. subst t. unfold depositTrace. cbn [tr_afterHead tr_net].
  set (net := netAmountOf amount isSystem).
  set (q2 := queue (guillotineCheck cfg env s)).
  assert (E2 : sumCollected q2 = sumCollected (queue s))
    by (apply sumCollected_sameButTarget, guillotineCheck_frame).
  destruct (distributeYield_sum (yieldPoolOf cfg net) q2) as [Y0 Y1].
  destruct (distributeHead_total (headPoolOf cfg net)
              (distributeYield (yieldPoolOf cfg net) q2)) as [T _].
  pose proof (totalNeed_nonneg (distributeYield (yieldPoolOf cfg net) q2)) as Hneed.
  rewrite T, <- E2.
  unfold yieldPoolOf, headPoolOf in *. destruct (strategy cfg); extrema.
Qed.

(** ** The refund walk *)

Lemma refundWalk_dry (surplus : Q) (q : list Player) :
  surplus <= 0 -> refundWalk surplus q = (q, surplus).
Proof.
  intros Hs. destruct q as [|p q]; [reflexivity|]. cbn [refundWalk].
  destruct (Qlt_le_dec 0 surplus) as [?|_]; [exfalso; lra | reflexivity].
Qed.

(** X20.  The refund walk serves the queue strictly in order: if a member
    has still collected less than its deposit after the walk, no member
    behind it has been refunded anything. *)
Theorem refund_walk_priority (surplus : Q) (q : list Player) (i : nat) (p' : Player) :
  0 <= surplus ->
  (refundWalk surplus q).1 !! i = Some p' ->
  collected p' < deposit p' ->
  forall j, (i < j)%nat -> (refundWalk surplus q).1 !! j = q !! j.
Proof.
  revert surplus i. induction q as [|p q IH]; intros surplus i Hpos Hi Hshort j Hj.
  - reflexivity.
  - cbn [refundWalk] in *.
    destruct (Qlt_le_dec 0 surplus) as [Hs|Hs]; [|reflexivity].
    set (need := Qmax 0 (deposit p - collected p)) in *.
    assert (Hneed : 0 <= need) by (unfold need; extrema).
    destruct (Qlt_le_dec 0 need) as [Hn|Hn].
    + destruct (Qlt_le_dec surplus need) as [Hlt|Hge].
      * assert (Hdry : surplus - Qmin surplus need <= 0) by extrema.
        rewrite (refundWalk_dry _ q Hdry) in *. cbn [fst] in *.
        destruct j as [|j]; [lia|]. reflexivity.
      * assert (Hleft : 0 <= surplus - Qmin surplus need) by extrema.
        destruct (refundWalk (surplus - Qmin surplus need) q) as [rest' rem] eqn:E.
        cbn [fst] in *. destruct i as [|i].
        -- injection Hi as <-. exfalso.
           cbn [credit set_collected collected deposit] in Hshort.
           unfold need in *. extrema.
        -- destruct j as [|j]; [lia|]. cbn [lookup list_lookup] in *.
           specialize (IH (surplus - Qmin surplus need) i Hleft).
           rewrite E in IH. apply IH; [exact Hi | exact Hshort | lia].
    + destruct (refundWalk surplus q) as [rest' rem] eqn:E. cbn [fst] in *.
      destruct i as [|i].
      * injection Hi as <-. exfalso. unfold need in *. extrema.
      * destruct j as [|j]; [lia|]. cbn [lookup list_lookup] in *.
        specialize (IH surplus i Hpos). rewrite E in IH.
        apply IH; [exact Hi | exact Hshort | lia].
Qed.

Lemma refund_walk_priority_witness :
  let walk := refundWalk 250 (queue scenario4) in
  0 <= 250 /\
  (exists p', walk.1 !! 1%nat = Some p' /\ collected p' < deposit p') /\
  walk.1 !! 2%nat = queue scenario4 !! 2%nat.
Proof.
  intros walk.
  assert (H0 : 0 <= 250) by (vm_compute; discriminate).
  assert (H1 : walk.1 !! 1%nat =
               Some (mkPlayer "b" 200 400 (50 + Qmin (250 - Qmin 250 (Qmax 0 (200 - 0)))
                                                 (Qmax 0 (200 - 50))) 1 0 false None))
    by reflexivity.
  assert (H2 : collected (mkPlayer "b" 200 400 (50 + Qmin (250 - Qmin 250 (Qmax 0 (200 - 0)))
                                                 (Qmax 0 (200 - 50))) 1 0 false None) <
               deposit (mkPlayer "b" 200 400 (50 + Qmin (250 - Qmin 250 (Qmax 0 (200 - 0)))
                                                 (Qmax 0 (200 - 50))) 1 0 false None))
    by reflexivity.
  split; [exact H0|].
  split; [eexists; split; [exact H1 | exact H2]|].
  apply (refund_walk_priority 250 (queue scenario4) 1 _ H0 H1 H2). lia.
Defined.

(** ** Outstanding liability *)

Lemma totalLiability_fold (q : list Player) (acc : Q) :
  foldl (fun a p => a + (target p - collected p)) acc q ==
  acc + (sumTargets q - sumCollected q).
Proof.
  revert acc. induction q as [|p q IH]; intros acc; cbn [foldl sumTargets sumCollected].
  - lra.
  - rewrite IH. lra.
Qed.

(** X21.  The liability the chart records is the sum of the targets less
    the sum of the collected amounts, and in a reachable state it exceeds
    0.01 per queued member: it is positive whenever somebody is queued and
    0 for the empty queue. *)
Theorem liability_of_reachable s :
  reachable s ->
  totalLiability (queue s) == sumTargets (queue s) - sumCollected (queue s) /\
  inject_Z (Z.of_nat (length (queue s))) * (1 # 100) <= totalLiability (queue s) /\
  (queue s <> [] -> 0 < totalLiability (queue s)).
Proof.
  intros Hr. pose proof (reachable_settled s Hr) as Hs.
  assert (Hsum : totalLiability (queue s) == sumTargets (queue s) - sumCollected (queue s)).
  { unfold totalLiability. rewrite totalLiability_fold. lra. }
  assert (Hlow : forall q, settled q ->
                 inject_Z (Z.of_nat (length q)) * (1 # 100) <=
                 sumTargets q - sumCollected q /\
                 (q <> [] -> 0 < sumTargets q - sumCollected q)).
  { intros q0 Hq0. unfold settled in Hq0.
    induction Hq0 as [|p q [H0 Hstay] _ IH].
    - cbn [length sumTargets sumCollected]. change (inject_Z (Z.of_nat 0)) with 0.
      split; [lra | intros H; contradiction].
    - destruct IH as [IH _]. unfold stays, EXIT_EPSILON in Hstay.
      cbn [length sumTargets sumCollected].
      rewrite Nat2Z.inj_succ. unfold Z.succ. rewrite inject_Z_plus.
      change (inject_Z 1) with 1.
      assert (0 <= inject_Z (Z.of_nat (length q)))
        by (change 0 with (inject_Z 0); rewrite <- Zle_Qle; lia).
      split; [lra | intros _; lra]. }
  destruct (Hlow (queue s) Hs) as [L1 L2].
  split; [exact Hsum|]. split; [rewrite Hsum; exact L1|].
  intros Hne. rewrite Hsum. exact (L2 Hne).
Qed.

Lemma liability_of_reachable_witness :
  reachable sampleRun /\ queue sampleRun <> [] /\
  0 < totalLiability (queue sampleRun).
Proof.
  assert (Hne : queue sampleRun <> []) by (vm_compute; discriminate).
  destruct (liability_of_reachable sampleRun sampleRun_reachable) as (_ & _ & Hpos).
  split; [exact sampleRun_reachable|]. split; [exact Hne | exact (Hpos Hne)].
Defined.
